(** * ChitFund: a shallow embedding of [contracts/chit.sol]

    The contract keeps a counter, a mapping from pool ids to [Chit] records
    and a mapping from member addresses to the list of pool ids they are in.
    Its external functions are embedded as computations over the contract
    storage that either revert with the source's reason string or return a
    value, a new storage and the events they emitted.

    [Ownable], which the contract inherits, keeps its owner in a storage slot
    of its own that none of the functions below reads or writes; it is left
    out. Arguments of type [uint256] are taken from all of [Z]: the results
    hold in particular for the values below [2^256] that a call can carry. *)

From stdpp Require Import gmap strings list fin_maps pretty.

Local Open Scope string_scope.
Local Open Scope list_scope.
Local Open Scope Z_scope.

(** ** Machine integers *)

(** [uint256] values are integers below [2^256]. *)
Definition uint256_modulus : Z := 2 ^ 256.
Definition max_uint256 : Z := uint256_modulus - 1.

(** The longest array that [new T[](n)] allocates in memory: for a longer
    one the allocation panics (0x41). *)
Definition max_memory_array_length : Z := 2 ^ 64 - 1.

(** Solidity addresses are 160-bit integers; the contract only compares them. *)
Definition address : Type := Z.

(** ** OpenZeppelin [Counters]

    The library the contract imports for [chitCounter]. Its [increment] is
    [unchecked { counter._value += 1; }]: the addition wraps at [2^256]. *)
Module Counters.

Record Counter : Type := mkCounter { _value : Z }.

Definition current (counter : Counter) : Z := _value counter.

Definition increment (counter : Counter) : Counter :=
  mkCounter ((_value counter + 1) mod uint256_modulus).

End Counters.

(** ** Data model *)

Record Chit : Type := mkChit {
  id : Z;
  title : string;
  description : string;
  totalAmount : Z;
  installmentAmount : Z;
  deadline : Z;
  createdAt : Z;
  participantLimit : Z;
  participants : list address;
  isCompleted : bool
}.

(** The value every slot of a Solidity mapping holds before it is written. *)
Definition zeroChit : Chit := mkChit 0 EmptyString EmptyString 0 0 0 0 0 [] false.

#[global] Instance Chit_inhabited : Inhabited Chit := populate zeroChit.

Record Storage : Type := mkStorage {
  chitCounter : Counters.Counter;
  chits : gmap Z Chit;
  userChits : gmap Z (list Z)
}.

Inductive Event : Type :=
| ChitCreated (_id : Z) (_title : string) (_totalAmount _participantLimit : Z)
              (creator : address)
| JoinedChit (_id : Z) (participant : address).

(** ** Transactions: revert, panic, events *)

Inductive result (A : Type) : Type :=
| Ok (a : A)
| Revert (reason : string)
| Panic (code : Z)
| OutOfGas.

Arguments Ok {A} a.
Arguments Revert {A} reason.
Arguments Panic {A} code.
Arguments OutOfGas {A}.

(** A state-changing function: reads and writes the storage, emits events. *)
Definition Tx (A : Type) : Type := Storage → result (A * Storage * list Event).

(** A [view] function: reads the storage only. *)
Definition View (A : Type) : Type := Storage → result A.

Definition tx_ret {A} (a : A) : Tx A := λ s, Ok (a, s, []).

Definition tx_bind {A B} (m : Tx A) (f : A → Tx B) : Tx B := λ s,
  match m s with
  | Ok (a, s1, ev1) =>
      match f a s1 with
      | Ok (b, s2, ev2) => Ok (b, s2, ev1 ++ ev2)
      | Revert r => Revert r
      | Panic c => Panic c
      | OutOfGas => OutOfGas
      end
  | Revert r => Revert r
  | Panic c => Panic c
  | OutOfGas => OutOfGas
  end.

#[global] Instance Tx_ret : MRet Tx := @tx_ret.
#[global] Instance Tx_bind : MBind Tx := λ A B f m, tx_bind m f.

Definition require (cond : bool) (reason : string) : Tx unit := λ s,
  if cond then Ok (tt, s, []) else Revert reason.

Definition emit (e : Event) : Tx unit := λ s, Ok (tt, s, [e]).

Definition sload {A} (f : Storage → A) : Tx A := λ s, Ok (f s, s, []).

Definition sstore (f : Storage → Storage) : Tx unit := λ s, Ok (tt, f s, []).

Definition view {A} (v : View A) : Tx A := λ s,
  match v s with
  | Ok a => Ok (a, s, [])
  | Revert r => Revert r
  | Panic c => Panic c
  | OutOfGas => OutOfGas
  end.

(** ** Storage writes *)

Definition set_id (v : Z) (c : Chit) : Chit :=
  mkChit v (title c) (description c) (totalAmount c) (installmentAmount c)
         (deadline c) (createdAt c) (participantLimit c) (participants c)
         (isCompleted c).
Definition set_title (v : string) (c : Chit) : Chit :=
  mkChit (id c) v (description c) (totalAmount c) (installmentAmount c)
         (deadline c) (createdAt c) (participantLimit c) (participants c)
         (isCompleted c).
Definition set_description (v : string) (c : Chit) : Chit :=
  mkChit (id c) (title c) v (totalAmount c) (installmentAmount c)
         (deadline c) (createdAt c) (participantLimit c) (participants c)
         (isCompleted c).
Definition set_totalAmount (v : Z) (c : Chit) : Chit :=
  mkChit (id c) (title c) (description c) v (installmentAmount c)
         (deadline c) (createdAt c) (participantLimit c) (participants c)
         (isCompleted c).
Definition set_installmentAmount (v : Z) (c : Chit) : Chit :=
  mkChit (id c) (title c) (description c) (totalAmount c) v
         (deadline c) (createdAt c) (participantLimit c) (participants c)
         (isCompleted c).
Definition set_deadline (v : Z) (c : Chit) : Chit :=
  mkChit (id c) (title c) (description c) (totalAmount c) (installmentAmount c)
         v (createdAt c) (participantLimit c) (participants c)
         (isCompleted c).
Definition set_createdAt (v : Z) (c : Chit) : Chit :=
  mkChit (id c) (title c) (description c) (totalAmount c) (installmentAmount c)
         (deadline c) v (participantLimit c) (participants c)
         (isCompleted c).
Definition set_participantLimit (v : Z) (c : Chit) : Chit :=
  mkChit (id c) (title c) (description c) (totalAmount c) (installmentAmount c)
         (deadline c) (createdAt c) v (participants c)
         (isCompleted c).
(** [participants.push(a)] *)
Definition push_participant (a : address) (c : Chit) : Chit :=
  mkChit (id c) (title c) (description c) (totalAmount c) (installmentAmount c)
         (deadline c) (createdAt c) (participantLimit c) (participants c ++ [a])
         (isCompleted c).

(** A write through the storage reference [chits[k]]. *)
Definition write_chit (k : Z) (f : Chit → Chit) : Tx unit :=
  sstore (λ s, mkStorage (chitCounter s) (<[k := f (chits s !!! k)]> (chits s))
                         (userChits s)).

(** [userChits[a].push(k)] *)
Definition push_userChit (a : address) (k : Z) : Tx unit :=
  sstore (λ s, mkStorage (chitCounter s) (chits s)
                         (<[a := (userChits s !!! a) ++ [k]]> (userChits s))).

Definition increment_chitCounter : Tx unit :=
  sstore (λ s, mkStorage (Counters.increment (chitCounter s)) (chits s)
                         (userChits s)).

(** ** The contract's functions *)

Definition createChit (msg_sender : address) (block_timestamp : Z)
    (_title _description : string)
    (_totalAmount _installmentAmount _participantLimit _deadline : Z)
  : Tx unit :=
  require (0 <? Z.of_nat (String.length _title)) "Title is required." ;;
  require (0 <? Z.of_nat (String.length _description))
          "Description is required." ;;
  require (0 <? _totalAmount) "Total amount must be greater than zero." ;;
  require (0 <? _installmentAmount)
          "Installment amount must be greater than zero." ;;
  require (0 <? _participantLimit)
          "Participant limit must be greater than zero." ;;
  require (block_timestamp <? _deadline) "Deadline must be in the future." ;;
  increment_chitCounter ;;
  newChitId ← sload (λ s, Counters.current (chitCounter s));
  write_chit newChitId (set_id newChitId) ;;
  write_chit newChitId (set_title _title) ;;
  write_chit newChitId (set_description _description) ;;
  write_chit newChitId (set_totalAmount _totalAmount) ;;
  write_chit newChitId (set_installmentAmount _installmentAmount) ;;
  write_chit newChitId (set_deadline _deadline) ;;
  write_chit newChitId (set_createdAt block_timestamp) ;;
  write_chit newChitId (set_participantLimit _participantLimit) ;;
  write_chit newChitId (push_participant msg_sender) ;;
  push_userChit msg_sender newChitId ;;
  emit (ChitCreated newChitId _title _totalAmount _participantLimit msg_sender).

(** The scan of [_isParticipant]: [i] runs over the array from index 0 and
    the function returns at the first element equal to [_participant]. *)
Fixpoint _isParticipant_scan (ps : list address) (_participant : address)
  : bool :=
  match ps with
  | [] => false
  | p :: rest =>
      if p =? _participant then true else _isParticipant_scan rest _participant
  end.

Definition _isParticipant (_chitId : Z) (_participant : address) (s : Storage)
  : bool :=
  let chit := chits s !!! _chitId in
  _isParticipant_scan (participants chit) _participant.

Definition joinChit (msg_sender : address) (block_timestamp : Z) (_chitId : Z)
  : Tx unit :=
  chit ← sload (λ s, chits s !!! _chitId);
  require (negb (id chit =? 0)) "Chit does not exist." ;;
  require (block_timestamp <? deadline chit) "Cannot join after deadline." ;;
  require (Z.of_nat (length (participants chit)) <? participantLimit chit)
          "Chit is full." ;;
  isP ← sload (_isParticipant _chitId msg_sender);
  require (negb isP) "Already joined this chit." ;;
  write_chit _chitId (push_participant msg_sender) ;;
  push_userChit msg_sender _chitId ;;
  emit (JoinedChit _chitId msg_sender).

Definition getParticipants (_chitId : Z) : View (list address) := λ s,
  let chit := chits s !!! _chitId in
  Ok (participants chit).

(** The loop of [getChits]. [fuel] bounds the number of iterations; the
    memory array write is bounds-checked (panic 0x32) and [i++] is a checked
    addition (panic 0x11). *)
Fixpoint getChits_loop (fuel : nat) (s : Storage) (totalChits i : Z)
    (chitList : list Chit) : result (list Chit) :=
  if i <=? totalChits then
    match fuel with
    | O => OutOfGas
    | S fuel' =>
        if (Z.to_nat (i - 1) <? length chitList)%nat then
          let chitList' := <[Z.to_nat (i - 1) := chits s !!! i]> chitList in
          if i + 1 <=? max_uint256
          then getChits_loop fuel' s totalChits (i + 1) chitList'
          else Panic 17
        else Panic 50
    end
  else Ok chitList.

(** [new Chit[](totalChits)] panics (0x41) when [totalChits] is more than
    [max_memory_array_length]; otherwise it is an array of zero records. What
    the memory the call touches costs is, like gas, not part of the model. *)
Definition getChits : View (list Chit) := λ s,
  let totalChits := Counters.current (chitCounter s) in
  if max_memory_array_length <? totalChits then Panic 65 else
  let chitList := replicate (Z.to_nat totalChits) zeroChit in
  getChits_loop (Z.to_nat totalChits) s totalChits 1 chitList.

(** ** Calls, transactions and the chain *)

Inductive Call : Type :=
| CreateChit (_title _description : string)
             (_totalAmount _installmentAmount _participantLimit _deadline : Z)
| JoinChit (_chitId : Z)
| GetParticipants (_chitId : Z)
| GetChits.

Inductive Return : Type :=
| RetUnit
| RetAddresses (l : list address)
| RetChits (l : list Chit).

(** A call together with [msg.sender] and [block.timestamp]. *)
Record Transaction : Type := mkTransaction {
  tx_sender : address;
  tx_timestamp : Z;
  tx_call : Call
}.

Definition dispatch (t : Transaction) : Tx Return :=
  match tx_call t with
  | CreateChit a b c d e f =>
      createChit (tx_sender t) (tx_timestamp t) a b c d e f ;; mret RetUnit
  | JoinChit k =>
      joinChit (tx_sender t) (tx_timestamp t) k ;; mret RetUnit
  | GetParticipants k =>
      l ← view (getParticipants k); mret (RetAddresses l)
  | GetChits =>
      l ← view getChits; mret (RetChits l)
  end.

(** The contract's storage together with every event emitted so far. *)
Record Chain : Type := mkChain {
  storage : Storage;
  log : list Event
}.

(** The state right after deployment: all storage is zero. *)
Definition deploy : Chain :=
  mkChain (mkStorage (Counters.mkCounter 0) ∅ ∅) [].

(** A transaction that does not return normally is rolled back: storage and
    log stay as they were. *)
Definition execute (w : Chain) (t : Transaction) : Chain :=
  match dispatch t (storage w) with
  | Ok (_, s', evs) => mkChain s' (log w ++ evs)
  | _ => w
  end.

Definition run (w : Chain) (ts : list Transaction) : Chain := foldl execute w ts.

(** Whether [t] is a [createChit] call that returns normally on [w]. *)
Definition creates (w : Chain) (t : Transaction) : bool :=
  match tx_call t, dispatch t (storage w) with
  | CreateChit _ _ _ _ _ _, Ok _ => true
  | _, _ => false
  end.

(** The number of [createChit] calls of [ts] that return normally when [ts]
    is executed from [w]. *)
Fixpoint successful_creations (w : Chain) (ts : list Transaction) : nat :=
  match ts with
  | [] => 0
  | t :: rest =>
      ((if creates w t then 1 else 0) + successful_creations (execute w t) rest)%nat
  end.

(** ** Reading the event log *)

(** Ids announced by [ChitCreated] events, oldest first. *)
Definition created_ids (l : list Event) : list Z :=
  omap (λ e, match e with
             | ChitCreated k _ _ _ _ => Some k
             | JoinedChit _ _ => None
             end) l.

(** Members admitted to pool [k] (by creating or joining it), oldest first. *)
Definition members_of (k : Z) (l : list Event) : list address :=
  omap (λ e, match e with
             | ChitCreated k' _ _ _ c => if decide (k' = k) then Some c else None
             | JoinedChit k' p => if decide (k' = k) then Some p else None
             end) l.

(** Pools member [m] was admitted to, oldest first. *)
Definition pools_of (m : address) (l : list Event) : list Z :=
  omap (λ e, match e with
             | ChitCreated k _ _ _ c => if decide (c = m) then Some k else None
             | JoinedChit k p => if decide (p = m) then Some k else None
             end) l.

(** ** The error taxonomy of the specification *)

Inductive ErrorKind : Type :=
| InvalidInput | InvalidDeadline | NotFound | Expired | Full | AlreadyJoined.

(** The reason strings of the contract's [require] statements, by kind. *)
Definition reasons (k : ErrorKind) : list string :=
  match k with
  | InvalidInput =>
      [ "Title is required.";
        "Description is required.";
        "Total amount must be greater than zero.";
        "Installment amount must be greater than zero.";
        "Participant limit must be greater than zero." ]
  | InvalidDeadline => [ "Deadline must be in the future." ]
  | NotFound => [ "Chit does not exist." ]
  | Expired => [ "Cannot join after deadline." ]
  | Full => [ "Chit is full." ]
  | AlreadyJoined => [ "Already joined this chit." ]
  end.

Definition fails_with {A} (r : result A) (k : ErrorKind) : Prop :=
  match r with
  | Revert reason => reason ∈ reasons k
  | _ => False
  end.

(** ** What the two state-changing functions compute *)

Definition created_chit (old : Chit) (k : Z) (sender : address) (now : Z)
    (t d : string) (total inst limit dl : Z) : Chit :=
  mkChit k t d total inst dl now limit (participants old ++ [sender])
         (isCompleted old).

Definition createChit_post (s : Storage) (sender : address) (now : Z)
    (t d : string) (total inst limit dl : Z) : Storage :=
  let k := Counters.current (Counters.increment (chitCounter s)) in
  mkStorage (Counters.increment (chitCounter s))
            (<[k := created_chit (chits s !!! k) k sender now t d total inst limit dl]>
               (chits s))
            (<[sender := (userChits s !!! sender) ++ [k]]> (userChits s)).

Definition joinChit_post (s : Storage) (sender : address) (k : Z) : Storage :=
  mkStorage (chitCounter s)
            (<[k := push_participant sender (chits s !!! k)]> (chits s))
            (<[sender := (userChits s !!! sender) ++ [k]]> (userChits s)).

(** ** One transaction, as a relation *)

(** What a transaction can do to the chain: nothing, a creation, or a join. *)
Inductive step (w : Chain) (t : Transaction) : Chain → Prop :=
| step_none : step w t w
| step_create tt d total inst limit dl :
    tx_call t = CreateChit tt d total inst limit dl →
    (0 < String.length tt)%nat → (0 < String.length d)%nat →
    0 < total → 0 < inst → 0 < limit → tx_timestamp t < dl →
    step w t
      (mkChain
         (createChit_post (storage w) (tx_sender t) (tx_timestamp t)
                          tt d total inst limit dl)
         (log w ++
          [ChitCreated
             (Counters.current (Counters.increment (chitCounter (storage w))))
             tt total limit (tx_sender t)]))
| step_join k :
    tx_call t = JoinChit k →
    id (chits (storage w) !!! k) ≠ 0 →
    tx_timestamp t < deadline (chits (storage w) !!! k) →
    Z.of_nat (length (participants (chits (storage w) !!! k)))
      < participantLimit (chits (storage w) !!! k) →
    tx_sender t ∉ participants (chits (storage w) !!! k) →
    step w t
      (mkChain (joinChit_post (storage w) (tx_sender t) k)
               (log w ++ [JoinedChit k (tx_sender t)])).

(** ** Invariants *)

Definition counter (w : Chain) : Z := Counters.current (chitCounter (storage w)).

(** Traces short enough that the 256-bit counter cannot wrap. *)
Definition feasible (ts : list Transaction) : Prop :=
  Z.of_nat (length ts) < max_uint256.

(** The storage is what the log says: each pool's [participants] are the
    members the events admitted, each member's index entry the pools they
    were admitted to. *)
Record log_inv (w : Chain) : Prop := mk_log_inv {
  li_participants :
    ∀ k, participants (chits (storage w) !!! k) = members_of k (log w);
  li_userChits :
    ∀ m, userChits (storage w) !!! m = pools_of m (log w)
}.

(** What holds of every record the contract has stored under key [k]. *)
Record chit_ok (k : Z) (ch : Chit) : Prop := mk_chit_ok {
  ok_id : id ch = k;
  ok_title : (0 < String.length (title ch))%nat;
  ok_description : (0 < String.length (description ch))%nat;
  ok_totalAmount : 0 < totalAmount ch;
  ok_installmentAmount : 0 < installmentAmount ch;
  ok_participantLimit : 0 < participantLimit ch;
  ok_capacity : Z.of_nat (length (participants ch)) ≤ participantLimit ch;
  ok_nodup : NoDup (participants ch);
  ok_deadline : createdAt ch < deadline ch;
  ok_isCompleted : isCompleted ch = false
}.

(** [n] bounds the number of transactions executed so far. *)
Record inv (n : nat) (w : Chain) : Prop := mk_inv {
  inv_counter : 0 ≤ counter w ≤ Z.of_nat n;
  inv_created : created_ids (log w) = seqZ 1 (counter w);
  inv_fresh : ∀ k, ¬ (1 ≤ k ≤ counter w) → chits (storage w) !! k = None;
  inv_chit : ∀ k, 1 ≤ k ≤ counter w →
    ∃ ch, chits (storage w) !! k = Some ch ∧ chit_ok k ch;
  inv_creator : ∀ k t a l c, ChitCreated k t a l c ∈ log w →
    head (participants (chits (storage w) !!! k)) = Some c ∧
    title (chits (storage w) !!! k) = t ∧
    totalAmount (chits (storage w) !!! k) = a ∧
    participantLimit (chits (storage w) !!! k) = l
}.

(** Slots whose id no [ChitCreated] event announced hold the zero record. *)
Definition unallocated_zero (w : Chain) : Prop :=
  ∀ k, k ∉ created_ids (log w) → chits (storage w) !!! k = zeroChit.

(** [c2] is [c1] with members appended, every other field as it was. *)
Record chit_extends (c1 c2 : Chit) : Prop := mk_chit_extends {
  ext_id : id c2 = id c1;
  ext_title : title c2 = title c1;
  ext_description : description c2 = description c1;
  ext_totalAmount : totalAmount c2 = totalAmount c1;
  ext_installmentAmount : installmentAmount c2 = installmentAmount c1;
  ext_deadline : deadline c2 = deadline c1;
  ext_createdAt : createdAt c2 = createdAt c1;
  ext_participantLimit : participantLimit c2 = participantLimit c1;
  ext_isCompleted : isCompleted c2 = isCompleted c1;
  ext_participants : participants c1 `prefix_of` participants c2
}.

(** Every pool allocated in [w1] is still there in [w2], only grown. *)
Definition extends (w1 w2 : Chain) : Prop :=
  counter w1 ≤ counter w2 ∧
  ∀ k, 1 ≤ k ≤ counter w1 →
       chit_extends (chits (storage w1) !!! k) (chits (storage w2) !!! k).

(** The creation parameters the contract rejects before looking at the
    deadline. *)
Definition invalid_input (t d : string) (total inst limit : Z) : Prop :=
  t = EmptyString ∨ d = EmptyString ∨ total ≤ 0 ∨ inst ≤ 0 ∨ limit ≤ 0.

(** ** The scenario of the specification

    A creation with a deadline in the past, then a pool for two created by
    member 10 at time 100, joined by member 11, and a third member turned
    away. *)
Module Scenario.

Definition past_deadline : Transaction :=
  mkTransaction 10 100 (CreateChit "pool" "monthly" 1000 100 2 50).
Definition create : Transaction :=
  mkTransaction 10 100 (CreateChit "pool" "monthly" 1000 100 2 3700).
Definition join_second : Transaction := mkTransaction 11 200 (JoinChit 1).
Definition join_third : Transaction := mkTransaction 12 300 (JoinChit 1).

Definition trace : list Transaction :=
  [past_deadline; create; join_second; join_third].

End Scenario.

(** ** Time

    Block timestamps never go back along a chain: a transaction is stamped at
    least as late as every earlier one. *)
Definition clock_monotone (ts : list Transaction) : Prop :=
  ∀ (i j : nat) t1 t2, (i ≤ j)%nat → ts !! i = Some t1 → ts !! j = Some t2 →
                       tx_timestamp t1 ≤ tx_timestamp t2.

(** * The client component, [components/Context.jsx]

    The three callbacks that read the contract are embedded as functions on
    the component's state. What [await contract.getChits()] delivers is an
    argument: [None] when the promise is rejected, otherwise the array of
    pools as the client library decoded it. A JavaScript exception is [None]
    in the [option] monad; either way the [catch] block only logs, so the
    state stays as it was. The wallet, transaction-sending and alerting
    callbacks are not modelled. *)
Module Context.

(** The JavaScript values that occur. [JsBigNumber] is the library's object
    for a [uint256]; [JsDate d] stands for [new Date(d * 1000)]. *)
#[local] Unset Elimination Schemes.
Inductive JsValue : Type :=
| JsUndefined
| JsNull
| JsBool (b : bool)
| JsNumber (n : Z)
| JsString (s : string)
| JsBigNumber (n : Z)
| JsDate (d : JsValue)
| JsArray (elems : list JsValue)
| JsObject (props : list (string * JsValue)).
#[local] Set Elimination Schemes.

Fixpoint assoc (name : string) (props : list (string * JsValue))
  : option JsValue :=
  match props with
  | [] => None
  | (k, v) :: rest => if String.eqb k name then Some v else assoc name rest
  end.

(** [v.name], for the property names the component reads (none of them is a
    built-in property of strings, numbers, arrays or library objects): a
    [TypeError] on [undefined] and [null], the property's value on an object
    that has it, [undefined] otherwise. *)
Definition get (v : JsValue) (name : string) : option JsValue :=
  match v with
  | JsUndefined | JsNull => None
  | JsObject props => Some (default JsUndefined (assoc name props))
  | _ => Some JsUndefined
  end.

(** JavaScript truthiness: objects are truthy, the empty string and 0 are
    not. *)
Definition truthy (v : JsValue) : bool :=
  match v with
  | JsUndefined | JsNull => false
  | JsBool b => b
  | JsNumber n => negb (n =? 0)
  | JsString s => negb (String.eqb s EmptyString)
  | _ => true
  end.

(** [a || b] *)
Definition or_else (a b : JsValue) : JsValue := if truthy a then a else b.

Definition lower_ascii (c : Ascii.ascii) : Ascii.ascii :=
  let n := Ascii.nat_of_ascii c in
  if ((65 <=? n) && (n <=? 90))%nat then Ascii.ascii_of_nat (n + 32) else c.

(** [s.toLowerCase()], on ASCII text. *)
Fixpoint toLowerCase (s : string) : string :=
  match s with
  | EmptyString => EmptyString
  | String c rest => String (lower_ascii c) (toLowerCase rest)
  end.

(** [v?.toLowerCase()]: [undefined] when [v] is [undefined] or [null], the
    lowered string when [v] is a string, a [TypeError] otherwise. *)
Definition opt_toLowerCase (v : JsValue) : option JsValue :=
  match v with
  | JsUndefined | JsNull => Some JsUndefined
  | JsString s => Some (JsString (toLowerCase s))
  | _ => None
  end.

(** [v === s] for a string [s]. *)
Definition strict_eq_string (v : JsValue) (s : string) : bool :=
  match v with
  | JsString s' => String.eqb s' s
  | _ => false
  end.

(** [array.some(f)]: stops at the first element [f] accepts. *)
Fixpoint some (f : JsValue → option bool) (l : list JsValue) : option bool :=
  match l with
  | [] => Some false
  | x :: rest =>
      b ← f x;
      if b : bool then Some true else some f rest
  end.

(** [v?.some(f)]: [undefined] when [v] is [undefined] or [null], a
    [TypeError] when [v] is not an array. *)
Definition opt_some (v : JsValue) (f : JsValue → option bool)
  : option JsValue :=
  match v with
  | JsUndefined | JsNull => Some JsUndefined
  | JsArray l => JsBool <$> some f l
  | _ => None
  end.

(** [array.filter(f)], keeping the elements for which [f] is truthy. *)
Fixpoint filter (f : JsValue → option JsValue) (l : list JsValue)
  : option (list JsValue) :=
  match l with
  | [] => Some []
  | x :: rest =>
      keep ← f x;
      rest' ← filter f rest;
      Some (if truthy keep then x :: rest' else rest')
  end.

(** [array.map((data, index) => f data index)], from index [i] on. *)
Fixpoint map_from (f : JsValue → nat → option JsValue) (i : nat)
    (l : list JsValue) : option (list JsValue) :=
  match l with
  | [] => Some []
  | x :: rest =>
      y ← f x i;
      rest' ← map_from f (S i) rest;
      Some (y :: rest')
  end.

(** An opaque reference to an object of the client library. *)
Inductive Handle : Type := EthersObject.

(** The pieces of component state, as [useState] declares them. *)
Record State : Type := mkState {
  walletAddress : option string;
  provider : option Handle;
  contract : option Handle;
  loadingContract : bool;
  chits : list JsValue;
  myChits : list JsValue;
  createdChits : list JsValue
}.

Definition setChits (v : list JsValue) (st : State) : State :=
  mkState (walletAddress st) (provider st) (contract st) (loadingContract st)
          v (myChits st) (createdChits st).
Definition setMyChits (v : list JsValue) (st : State) : State :=
  mkState (walletAddress st) (provider st) (contract st) (loadingContract st)
          (chits st) v (createdChits st).
Definition setCreatedChits (v : list JsValue) (st : State) : State :=
  mkState (walletAddress st) (provider st) (contract st) (loadingContract st)
          (chits st) (myChits st) v.

Section Library.

(** Two functions of the runtime and the client library: [v.toString()] and
    [ethers.utils.formatEther], which throws on text that is not a number. *)
Variable toString : JsValue → string.
Variable formatEther : string → option string.

(** [v ? ethers.utils.formatEther(v.toString()) : '0'] *)
Definition ether_or_zero (v : JsValue) : option JsValue :=
  if truthy v then JsString <$> formatEther (toString v)
  else Some (JsString "0").

(** [v?.toString()] *)
Definition opt_toString (v : JsValue) : JsValue :=
  match v with
  | JsUndefined | JsNull => JsUndefined
  | _ => JsString (toString v)
  end.

(** The callback of [allChits.map] in [fetchAllChits]. *)
Definition parseChit (data : JsValue) (index : nat) : option JsValue :=
  title ← get data "title";
  description ← get data "description";
  totalAmount ← get data "totalAmount";
  total ← ether_or_zero totalAmount;
  installmentAmount ← get data "installmentAmount";
  inst ← ether_or_zero installmentAmount;
  deadline ← get data "deadline";
  numberOfParticipants ← get data "numberOfParticipants";
  creator ← get data "creator";
  Some (JsObject
    [ ("id", JsNumber (Z.of_nat index));
      ("title", or_else title (JsString "Unknown Title"));
      ("desc", or_else description (JsString "No description provided"));
      ("total", total);
      ("inst", inst);
      ("deadline", if truthy deadline then JsDate deadline
                   else JsString "No deadline");
      ("participants", or_else (opt_toString numberOfParticipants)
                               (JsString "0"));
      ("by", or_else creator (JsString "Unknown")) ]).

Definition fetchAllChits (reply : option (list JsValue)) (st : State)
  : State :=
  match contract st with
  | None => st
  | Some _ =>
      match reply with
      | None => st
      | Some allChits =>
          match map_from parseChit 0 allChits with
          | Some parsedChits => setChits parsedChits st
          | None => st
          end
      end
  end.

End Library.

(** The callback of [allChits.filter] in [fetchCreatedChits]. *)
Definition created_by (walletAddress : string) (chit : JsValue)
  : option JsValue :=
  creator ← get chit "creator";
  lowered ← opt_toLowerCase creator;
  Some (JsBool (strict_eq_string lowered (toLowerCase walletAddress))).

(** The guard [if (!contract || !walletAddress) return;] lets through a
    contract that is set and an address that is a non-empty string. *)
Definition fetchCreatedChits (reply : option (list JsValue)) (st : State)
  : State :=
  if is_Some_dec (contract st) then
    match walletAddress st with
    | Some w =>
        if String.eqb w EmptyString then st else
        match reply with
        | None => st
        | Some allChits =>
            match filter (created_by w) allChits with
            | Some filtered => setCreatedChits filtered st
            | None => st
            end
        end
    | None => st
    end
  else st.

(** The callback of [participants.some] in [fetchMyChits]. *)
Definition is_wallet (walletAddress : string) (participant : JsValue)
  : option bool :=
  wallet ← get participant "wallet";
  lowered ← opt_toLowerCase wallet;
  Some (strict_eq_string lowered (toLowerCase walletAddress)).

(** The callback of [allChits.filter] in [fetchMyChits]. *)
Definition joined_by (walletAddress : string) (chit : JsValue)
  : option JsValue :=
  ps ← get chit "participants";
  opt_some ps (is_wallet walletAddress).

Definition fetchMyChits (reply : option (list JsValue)) (st : State) : State :=
  if is_Some_dec (contract st) then
    match walletAddress st with
    | Some w =>
        if String.eqb w EmptyString then st else
        match reply with
        | None => st
        | Some allChits =>
            match filter (joined_by w) allChits with
            | Some filtered => setMyChits filtered st
            | None => st
            end
        end
    | None => st
    end
  else st.

End Context.

(** A pool as [getChits] delivers it to the component, with one property
    per field of the contract's [Chit] struct, and a component state with a
    contract and the wallet of that pool's second participant. *)
Module ClientScenario.

Definition pool : Context.JsValue :=
  Context.JsObject
    [ ("id", Context.JsBigNumber 1);
      ("title", Context.JsString "pool");
      ("description", Context.JsString "monthly");
      ("totalAmount", Context.JsBigNumber 1000);
      ("installmentAmount", Context.JsBigNumber 100);
      ("deadline", Context.JsBigNumber 3700);
      ("createdAt", Context.JsBigNumber 100);
      ("participantLimit", Context.JsBigNumber 2);
      ("participants",
       Context.JsArray [Context.JsString "0xAa"; Context.JsString "0xBb"]);
      ("isCompleted", Context.JsBool false) ].

Definition state : Context.State :=
  Context.mkState (Some "0xBb") (Some Context.EthersObject)
                  (Some Context.EthersObject) false [] [] [].

Definition toString (v : Context.JsValue) : string :=
  match v with
  | Context.JsBigNumber n => pretty n
  | Context.JsString s => s
  | _ => "[object Object]"
  end.

Definition formatEther (wei : string) : option string := Some wei.

End ClientScenario.

(** ** Tactics *)

Ltac counter_lia := unfold counter in *; lia.

Ltac reason_in :=
  cbn; repeat first [apply list_elem_of_here | apply list_elem_of_further].

Ltac reason_out H :=
  cbn in H;
  repeat (apply elem_of_cons in H as [H|H]; [discriminate H|]);
  by apply not_elem_of_nil in H.

(** * Proofs *)

(** ** What the two state-changing functions compute, proved *)

Lemma createChit_unfold sender now t d total inst limit dl s :
  createChit sender now t d total inst limit dl s =
  if negb (0 <? Z.of_nat (String.length t)) then Revert "Title is required."
  else if negb (0 <? Z.of_nat (String.length d))
       then Revert "Description is required."
  else if negb (0 <? total)
       then Revert "Total amount must be greater than zero."
  else if negb (0 <? inst)
       then Revert "Installment amount must be greater than zero."
  else if negb (0 <? limit)
       then Revert "Participant limit must be greater than zero."
  else if negb (now <? dl) then Revert "Deadline must be in the future."
  else Ok (tt, createChit_post s sender now t d total inst limit dl,
           [ChitCreated (Counters.current (Counters.increment (chitCounter s)))
                        t total limit sender]).
Proof.
  unfold createChit, mbind, Tx_bind, tx_bind, require.
  destruct (0 <? Z.of_nat (String.length t)); [|done].
  destruct (0 <? Z.of_nat (String.length d)); [|done].
  destruct (0 <? total); [|done].
  destruct (0 <? inst); [|done].
  destruct (0 <? limit); [|done].
  destruct (now <? dl); [|done].
  cbn [negb]. unfold createChit_post, created_chit.
  cbn -[Counters.increment Counters.current].
  rewrite !lookup_total_insert_eq, !insert_insert_eq.
  cbn -[Counters.increment Counters.current].
  reflexivity.
Qed.

Lemma _isParticipant_scan_spec ps a :
  _isParticipant_scan ps a = bool_decide (a ∈ ps).
Proof.
  induction ps as [|p ps IH]; cbn.
  - symmetry. apply bool_decide_eq_false. apply not_elem_of_nil.
  - destruct (Z.eqb_spec p a) as [->|Hne].
    + symmetry. apply bool_decide_eq_true. apply list_elem_of_here.
    + rewrite IH. apply bool_decide_ext. rewrite elem_of_cons.
      split; [auto | intros [?|?]; [congruence | done]].
Qed.

Lemma joinChit_unfold sender now k s :
  joinChit sender now k s =
  let chit := chits s !!! k in
  if id chit =? 0 then Revert "Chit does not exist."
  else if negb (now <? deadline chit) then Revert "Cannot join after deadline."
  else if negb (Z.of_nat (length (participants chit)) <? participantLimit chit)
       then Revert "Chit is full."
  else if bool_decide (sender ∈ participants chit)
       then Revert "Already joined this chit."
  else Ok (tt, joinChit_post s sender k, [JoinedChit k sender]).
Proof.
  unfold joinChit, mbind, Tx_bind, tx_bind, require, sload. cbn zeta beta iota.
  destruct (id (chits s !!! k) =? 0); [done|].
  destruct (now <? deadline (chits s !!! k)); [|done].
  destruct (Z.of_nat (length (participants (chits s !!! k)))
            <? participantLimit (chits s !!! k)); [|done].
  cbn [negb]. unfold _isParticipant. rewrite _isParticipant_scan_spec.
  destruct (bool_decide (sender ∈ participants (chits s !!! k))); done.
Qed.

(** The five ways [joinChit] can end, one lemma each. *)
Section JoinOutcomes.
Variables (s : Storage) (sender : address) (now k : Z).

Lemma joinChit_not_found :
  id (chits s !!! k) = 0 →
  joinChit sender now k s = Revert "Chit does not exist.".
Proof.
  intros Hid. rewrite joinChit_unfold. cbn zeta.
  by destruct (Z.eqb_spec (id (chits s !!! k)) 0).
Qed.

Hypothesis Hid : id (chits s !!! k) ≠ 0.

Lemma joinChit_expired :
  deadline (chits s !!! k) ≤ now →
  joinChit sender now k s = Revert "Cannot join after deadline.".
Proof.
  intros Hdl. rewrite joinChit_unfold. cbn zeta.
  destruct (Z.eqb_spec (id (chits s !!! k)) 0); [done|].
  destruct (Z.ltb_spec now (deadline (chits s !!! k))); [lia | done].
Qed.

Hypothesis Hdl : now < deadline (chits s !!! k).

Lemma joinChit_full :
  participantLimit (chits s !!! k)
    ≤ Z.of_nat (length (participants (chits s !!! k))) →
  joinChit sender now k s = Revert "Chit is full.".
Proof.
  intros Hcap. rewrite joinChit_unfold. cbn zeta.
  destruct (Z.eqb_spec (id (chits s !!! k)) 0); [done|].
  destruct (Z.ltb_spec now (deadline (chits s !!! k))); [|lia].
  cbn [negb].
  destruct (Z.ltb_spec (Z.of_nat (length (participants (chits s !!! k))))
              (participantLimit (chits s !!! k))); [lia | done].
Qed.

Hypothesis Hcap :
  Z.of_nat (length (participants (chits s !!! k)))
    < participantLimit (chits s !!! k).

Lemma joinChit_already_joined :
  sender ∈ participants (chits s !!! k) →
  joinChit sender now k s = Revert "Already joined this chit.".
Proof.
  intros Hin. rewrite joinChit_unfold. cbn zeta.
  destruct (Z.eqb_spec (id (chits s !!! k)) 0); [done|].
  destruct (Z.ltb_spec now (deadline (chits s !!! k))); [|lia].
  cbn [negb].
  destruct (Z.ltb_spec (Z.of_nat (length (participants (chits s !!! k))))
              (participantLimit (chits s !!! k))); [|lia].
  cbn [negb]. by rewrite bool_decide_eq_true_2.
Qed.

Lemma joinChit_ok :
  sender ∉ participants (chits s !!! k) →
  joinChit sender now k s
    = Ok (tt, joinChit_post s sender k, [JoinedChit k sender]).
Proof.
  intros Hin. rewrite joinChit_unfold. cbn zeta.
  destruct (Z.eqb_spec (id (chits s !!! k)) 0); [done|].
  destruct (Z.ltb_spec now (deadline (chits s !!! k))); [|lia].
  cbn [negb].
  destruct (Z.ltb_spec (Z.of_nat (length (participants (chits s !!! k))))
              (participantLimit (chits s !!! k))); [|lia].
  cbn [negb]. by rewrite bool_decide_eq_false_2.
Qed.
End JoinOutcomes.

(** ** One transaction *)

Lemma view_unfold {A} (v : View A) s :
  view v s = match v s with
             | Ok a => Ok (a, s, [])
             | Revert r => Revert r
             | Panic c => Panic c
             | OutOfGas => OutOfGas
             end.
Proof. reflexivity. Qed.

Lemma chain_eta w : mkChain (storage w) (log w) = w.
Proof. by destruct w. Qed.

Lemma execute_CreateChit w sender now t d total inst limit dl :
  execute w (mkTransaction sender now (CreateChit t d total inst limit dl)) =
  match createChit sender now t d total inst limit dl (storage w) with
  | Ok (_, s', evs) => mkChain s' (log w ++ evs)
  | _ => w
  end.
Proof.
  unfold execute, dispatch. cbn [tx_call tx_sender tx_timestamp].
  unfold mbind, Tx_bind, tx_bind.
  destruct (createChit _ _ _ _ _ _ _ _ _) as [[[[] s'] evs]| | |]; cbn;
    by rewrite ?app_nil_r.
Qed.

Lemma execute_JoinChit w sender now k :
  execute w (mkTransaction sender now (JoinChit k)) =
  match joinChit sender now k (storage w) with
  | Ok (_, s', evs) => mkChain s' (log w ++ evs)
  | _ => w
  end.
Proof.
  unfold execute, dispatch. cbn [tx_call tx_sender tx_timestamp].
  unfold mbind, Tx_bind, tx_bind.
  destruct (joinChit _ _ _ _) as [[[[] s'] evs]| | |]; cbn;
    by rewrite ?app_nil_r.
Qed.

(** Calls to the [view] functions leave the chain as it is. *)
Lemma execute_view w sender now c :
  (∃ k, c = GetParticipants k) ∨ c = GetChits →
  execute w (mkTransaction sender now c) = w.
Proof.
  intros [[k ->] | ->]; unfold execute, dispatch;
    cbn [tx_call tx_sender tx_timestamp]; unfold mbind, Tx_bind, tx_bind.
  - cbn. rewrite app_nil_r. apply chain_eta.
  - rewrite view_unfold. destruct (getChits (storage w)); cbn; try done.
    rewrite app_nil_r. apply chain_eta.
Qed.

Lemma execute_step w t : step w t (execute w t).
Proof.
  destruct t as [sender now [tt d total inst limit dl | k | k | ]].
  - rewrite execute_CreateChit, createChit_unfold.
    destruct (Z.ltb_spec 0 (Z.of_nat (String.length tt))); cbn [negb];
      [|constructor].
    destruct (Z.ltb_spec 0 (Z.of_nat (String.length d))); cbn [negb];
      [|constructor].
    destruct (Z.ltb_spec 0 total); cbn [negb]; [|constructor].
    destruct (Z.ltb_spec 0 inst); cbn [negb]; [|constructor].
    destruct (Z.ltb_spec 0 limit); cbn [negb]; [|constructor].
    destruct (Z.ltb_spec now dl); cbn [negb]; [|constructor].
    eapply (step_create w (mkTransaction sender now _)); cbn; try done; lia.
  - rewrite execute_JoinChit, joinChit_unfold. cbn zeta.
    destruct (Z.eqb_spec (id (chits (storage w) !!! k)) 0); [constructor|].
    destruct (Z.ltb_spec now (deadline (chits (storage w) !!! k)));
      cbn [negb]; [|constructor].
    destruct (Z.ltb_spec (Z.of_nat (length (participants (chits (storage w) !!! k))))
                (participantLimit (chits (storage w) !!! k)));
      cbn [negb]; [|constructor].
    case_bool_decide; [constructor|].
    by eapply (step_join w (mkTransaction sender now _)).
  - rewrite execute_view; [constructor | eauto].
  - rewrite execute_view; [constructor | eauto].
Qed.

(** ** The log mirrors the storage *)

Lemma members_of_app k l1 l2 :
  members_of k (l1 ++ l2) = members_of k l1 ++ members_of k l2.
Proof. apply omap_app. Qed.

Lemma pools_of_app m l1 l2 :
  pools_of m (l1 ++ l2) = pools_of m l1 ++ pools_of m l2.
Proof. apply omap_app. Qed.

Lemma created_ids_app l1 l2 :
  created_ids (l1 ++ l2) = created_ids l1 ++ created_ids l2.
Proof. apply omap_app. Qed.

(** Both lists are read off the same events, so they agree on who is where. *)
Lemma pools_of_members_of m k l : k ∈ pools_of m l ↔ m ∈ members_of k l.
Proof.
  unfold pools_of, members_of. rewrite !list_elem_of_omap.
  split; intros (e & He & Hm); exists e; (split; [done|]);
    destruct e; repeat case_decide; simplify_eq; done.
Qed.

Lemma log_inv_deploy : log_inv deploy.
Proof. split; intros; cbn; by rewrite lookup_total_empty. Qed.

Lemma log_inv_step w t w' : step w t w' → log_inv w → log_inv w'.
Proof.
  intros Hstep [Hp Hu]. destruct Hstep as [|tt d total inst limit dl|k]; [done|..].
  - split; cbn [storage log createChit_post chits userChits].
    + intros k. rewrite members_of_app. cbn.
      set (k0 := (_ mod _)). destruct (decide (k0 = k)) as [->|Hne].
      * rewrite lookup_total_insert_eq. cbn. by rewrite Hp.
      * rewrite lookup_total_insert_ne by done. by rewrite app_nil_r.
    + intros m. rewrite pools_of_app. cbn.
      destruct (decide (tx_sender t = m)) as [->|Hne].
      * rewrite lookup_total_insert_eq. by rewrite Hu.
      * rewrite lookup_total_insert_ne by done. by rewrite app_nil_r.
  - split; cbn [storage log joinChit_post chits userChits].
    + intros k'. rewrite members_of_app. cbn.
      destruct (decide (k = k')) as [->|Hne].
      * rewrite lookup_total_insert_eq. cbn. by rewrite Hp.
      * rewrite lookup_total_insert_ne by done. by rewrite app_nil_r.
    + intros m. rewrite pools_of_app. cbn.
      destruct (decide (tx_sender t = m)) as [->|Hne].
      * rewrite lookup_total_insert_eq. by rewrite Hu.
      * rewrite lookup_total_insert_ne by done. by rewrite app_nil_r.
Qed.

Lemma run_snoc w ts t : run w (ts ++ [t]) = execute (run w ts) t.
Proof. unfold run. by rewrite foldl_snoc. Qed.

Lemma run_app w ts1 ts2 : run w (ts1 ++ ts2) = run (run w ts1) ts2.
Proof. unfold run. by rewrite foldl_app. Qed.

Lemma log_inv_run ts : log_inv (run deploy ts).
Proof.
  induction ts as [|t ts IH] using rev_ind; [apply log_inv_deploy|].
  rewrite run_snoc. eapply log_inv_step; [apply execute_step | done].
Qed.

(** ** The invariant of the pool store *)

Lemma uint256_modulus_pos : 0 < uint256_modulus.
Proof. done. Qed.

Lemma increment_no_wrap cnt :
  0 ≤ Counters.current cnt < max_uint256 →
  Counters.current (Counters.increment cnt) = Counters.current cnt + 1.
Proof.
  unfold max_uint256, Counters.increment, Counters.current. cbn. intros H.
  apply Z.mod_small. lia.
Qed.

(** At the top of the range the unchecked addition does wrap. *)
Example increment_wraps :
  Counters.current (Counters.increment (Counters.mkCounter max_uint256)) = 0.
Proof. by vm_compute. Qed.

Lemma seqZ_snoc_1 c : 0 ≤ c → seqZ 1 (c + 1) = seqZ 1 c ++ [c + 1].
Proof.
  intros Hc. rewrite seqZ_app by lia. f_equal.
  rewrite seqZ_cons by lia. rewrite seqZ_nil by lia. f_equal. lia.
Qed.

Lemma created_in_ids k t a l c evs :
  ChitCreated k t a l c ∈ evs → k ∈ created_ids evs.
Proof.
  intros H. unfold created_ids. apply list_elem_of_omap.
  by exists (ChitCreated k t a l c).
Qed.

Lemma inv_deploy : inv 0 deploy.
Proof.
  split; cbn; try done.
  - intros k Hk. lia.
  - intros k t a l c H. by apply not_elem_of_nil in H.
Qed.

Lemma inv_weaken n m w : (n ≤ m)%nat → inv n w → inv m w.
Proof. intros Hle [H1 H2 H3 H4 H5]. split; try done. lia. Qed.

Lemma inv_fresh_zero n w k :
  inv n w → ¬ (1 ≤ k ≤ counter w) → chits (storage w) !!! k = zeroChit.
Proof.
  intros Hinv Hk. rewrite lookup_total_alt. by rewrite (inv_fresh _ _ Hinv k Hk).
Qed.

Lemma inv_allocated n w k :
  inv n w → id (chits (storage w) !!! k) ≠ 0 ↔ 1 ≤ k ≤ counter w.
Proof.
  intros Hinv. split.
  - intros Hid. destruct (decide (1 ≤ k ≤ counter w)) as [|Hn]; [done|].
    by rewrite (inv_fresh_zero _ _ _ Hinv Hn) in Hid.
  - intros Hk. destruct (inv_chit _ _ Hinv k Hk) as (ch & Hch & Hok).
    rewrite (lookup_total_correct _ _ _ Hch). rewrite (ok_id _ _ Hok). lia.
Qed.

Lemma inv_created_range n w k t a l c :
  inv n w → ChitCreated k t a l c ∈ log w → 1 ≤ k ≤ counter w.
Proof.
  intros Hinv H%created_in_ids. rewrite (inv_created _ _ Hinv) in H.
  apply elem_of_seqZ in H. lia.
Qed.

Lemma inv_step n w t w' :
  inv n w → Z.of_nat n < max_uint256 → step w t w' → inv (S n) w'.
Proof.
  intros Hinv Hn Hstep.
  destruct Hstep as [|tt d total inst limit dl Hcall Htt Hd Htot Hinst Hlim Hdl
                     |k Hcall Hid Hdl Hcap Hnew].
  - eapply inv_weaken; [|done]. counter_lia.
  - pose proof (inv_counter _ _ Hinv) as Hc. unfold counter in Hc.
    assert (Hk0 : Counters.current (Counters.increment (chitCounter (storage w)))
                  = counter w + 1).
    { apply increment_no_wrap. counter_lia. }
    unfold createChit_post. cbn zeta. rewrite Hk0.
    fold (counter w) in Hc.
    assert (Hz : chits (storage w) !!! (counter w + 1) = zeroChit).
    { apply (inv_fresh_zero _ _ _ Hinv). counter_lia. }
    pose proof (inv_counter _ _ Hinv) as Hc'.
    split; unfold counter in *; cbn [storage log chits chitCounter]; rewrite ?Hk0.
    + counter_lia.
    + rewrite created_ids_app. cbn. rewrite (inv_created _ _ Hinv).
      symmetry. apply seqZ_snoc_1. counter_lia.
    + intros k Hk. rewrite lookup_insert_ne by counter_lia.
      apply (inv_fresh _ _ Hinv). counter_lia.
    + intros k Hk. destruct (decide (k = counter w + 1)) as [->|Hne].
      * rewrite lookup_insert_eq. eexists; split; [done|].
        rewrite Hz. split; cbn; try done.
        -- counter_lia.
        -- apply NoDup_singleton.
      * rewrite lookup_insert_ne by counter_lia. apply (inv_chit _ _ Hinv). counter_lia.
    + intros k t0 a l c [Hin|Hin%list_elem_of_singleton]%elem_of_app.
      * pose proof (inv_created_range _ _ _ _ _ _ _ Hinv Hin).
        rewrite lookup_total_insert_ne by counter_lia.
        by apply (inv_creator _ _ Hinv).
      * simplify_eq. rewrite lookup_total_insert_eq, Hz. done.
  - pose proof (proj1 (inv_allocated _ _ k Hinv) Hid) as Hk.
    destruct (inv_chit _ _ Hinv k Hk) as (ch & Hch & Hok).
    rewrite (lookup_total_correct _ _ _ Hch) in Hdl, Hcap, Hnew.
    split; unfold counter, joinChit_post; cbn [storage log chits chitCounter].
    + pose proof (inv_counter _ _ Hinv) as Hc. unfold counter in Hc. counter_lia.
    + rewrite created_ids_app. cbn. rewrite app_nil_r.
      apply (inv_created _ _ Hinv).
    + intros k' Hk'. rewrite lookup_insert_ne.
      * by apply (inv_fresh _ _ Hinv).
      * intros ->. done.
    + intros k' Hk'. destruct (decide (k' = k)) as [->|Hne].
      * rewrite lookup_insert_eq. eexists; split; [done|].
        rewrite (lookup_total_correct _ _ _ Hch).
        destruct Hok. split; cbn; try done.
        -- rewrite length_app. cbn. counter_lia.
        -- apply NoDup_app. split_and!; [done| |apply NoDup_singleton].
           intros x Hx Hx'%list_elem_of_singleton. by subst.
      * rewrite lookup_insert_ne by done. by apply (inv_chit _ _ Hinv).
    + intros k' t0 a l c [Hin|Hin%list_elem_of_singleton]%elem_of_app;
        [|done].
      destruct (inv_creator _ _ Hinv _ _ _ _ _ Hin) as (Hh & Ht & Ha & Hl).
      destruct (decide (k' = k)) as [->|Hne].
      * rewrite lookup_total_insert_eq. cbn.
        split_and!; try done.
        destruct (participants (chits (storage w) !!! k)); done.
      * rewrite lookup_total_insert_ne by done. done.
Qed.

Lemma feasible_app_l ts1 ts2 : feasible (ts1 ++ ts2) → feasible ts1.
Proof. unfold feasible. rewrite length_app. lia. Qed.

Lemma inv_run ts : feasible ts → inv (length ts) (run deploy ts).
Proof.
  induction ts as [|t ts IH] using rev_ind; intros Hf; [apply inv_deploy|].
  rewrite run_snoc, length_app. cbn. rewrite Nat.add_1_r.
  apply (inv_step _ (run deploy ts) t).
  - apply IH. by eapply feasible_app_l.
  - by eapply feasible_app_l.
  - apply execute_step.
Qed.

(** ** Records only grow *)

Lemma chit_extends_refl c : chit_extends c c.
Proof. by split. Qed.

Lemma chit_extends_trans c1 c2 c3 :
  chit_extends c1 c2 → chit_extends c2 c3 → chit_extends c1 c3.
Proof.
  intros [] []. split; try congruence. by etrans.
Qed.

Lemma chit_extends_push a c : chit_extends c (push_participant a c).
Proof. split; cbn; try done. by apply prefix_app_r. Qed.

Lemma extends_refl w : extends w w.
Proof. split; [done|]. intros. apply chit_extends_refl. Qed.

Lemma extends_trans w1 w2 w3 : extends w1 w2 → extends w2 w3 → extends w1 w3.
Proof.
  intros [Hc1 H1] [Hc2 H2]. split; [lia|]. intros k Hk.
  eapply chit_extends_trans; [by apply H1|]. apply H2. lia.
Qed.

Lemma extends_step n w t w' :
  inv n w → Z.of_nat n < max_uint256 → step w t w' → extends w w'.
Proof.
  intros Hinv Hn Hstep. pose proof (inv_counter _ _ Hinv) as Hc.
  destruct Hstep as [|tt d total inst limit dl _ _ _ _ _ _ _|k _ _ _ _ _].
  - apply extends_refl.
  - assert (Hk0 : Counters.current (Counters.increment (chitCounter (storage w)))
                  = counter w + 1).
    { apply increment_no_wrap. unfold counter in *. lia. }
    unfold extends, createChit_post, counter in *.
    cbn [storage chits chitCounter]. rewrite Hk0. split; [lia|].
    intros k Hk. rewrite lookup_total_insert_ne by lia. apply chit_extends_refl.
  - unfold extends, joinChit_post, counter in *.
    cbn [storage chits chitCounter]. split; [lia|].
    intros k' Hk'. destruct (decide (k = k')) as [->|Hne].
    + rewrite lookup_total_insert_eq. apply chit_extends_push.
    + rewrite lookup_total_insert_ne by done. apply chit_extends_refl.
Qed.

Lemma extends_run ts1 ts2 :
  feasible (ts1 ++ ts2) →
  extends (run deploy ts1) (run (run deploy ts1) ts2).
Proof.
  induction ts2 as [|t ts2 IH] using rev_ind; intros Hf; [apply extends_refl|].
  rewrite app_assoc in Hf. pose proof (feasible_app_l _ _ Hf) as Hf'.
  rewrite run_snoc. eapply extends_trans; [by apply IH|].
  rewrite <- run_app.
  eapply extends_step; [by apply inv_run | done | apply execute_step].
Qed.

(** ** The listing loop *)

Lemma getChits_loop_spec s totalChits fuel : ∀ i chitList,
  1 ≤ i → totalChits < max_uint256 →
  Z.of_nat fuel = totalChits + 1 - i →
  length chitList = Z.to_nat totalChits →
  getChits_loop fuel s totalChits i chitList =
  Ok (take (Z.to_nat (i - 1)) chitList ++
      ((λ j, chits s !!! j) <$> seqZ i (totalChits + 1 - i))).
Proof.
  induction fuel as [|fuel IH]; intros i chitList Hi Hmax Hfuel Hlen;
    cbn [getChits_loop].
  - destruct (Z.leb_spec i totalChits); [lia|].
    rewrite take_ge by lia. rewrite seqZ_nil by lia. by rewrite app_nil_r.
  - destruct (Z.leb_spec i totalChits); [|lia].
    destruct (Nat.ltb_spec (Z.to_nat (i - 1)) (length chitList)); [|lia].
    destruct (Z.leb_spec (i + 1) max_uint256); [|lia].
    rewrite IH by (rewrite ?length_insert; lia).
    f_equal. replace (Z.to_nat (i + 1 - 1)) with (S (Z.to_nat (i - 1))) by lia.
    rewrite (take_S_r _ _ (chits s !!! i)) by by apply list_lookup_insert_eq.
    rewrite take_insert_ge by done. rewrite <- app_assoc. f_equal.
    rewrite (seqZ_cons i) by lia. cbn.
    replace (i + 1) with (Z.succ i) by lia.
    by replace (totalChits + 1 - Z.succ i) with (Z.pred (totalChits + 1 - i))
      by lia.
Qed.

Lemma max_memory_array_length_lt : max_memory_array_length < max_uint256.
Proof. done. Qed.

Lemma getChits_spec s :
  0 ≤ Counters.current (chitCounter s) ≤ max_memory_array_length →
  getChits s =
  Ok ((λ j, chits s !!! j) <$> seqZ 1 (Counters.current (chitCounter s))).
Proof.
  intros Hc. pose proof max_memory_array_length_lt as Hlt.
  unfold getChits. cbn zeta.
  destruct (Z.ltb_spec max_memory_array_length
              (Counters.current (chitCounter s))); [lia|].
  rewrite getChits_loop_spec; rewrite ?length_replicate; try lia.
  rewrite Z.add_simpl_r. by rewrite take_0.
Qed.

Lemma getChits_too_long s :
  max_memory_array_length < Counters.current (chitCounter s) →
  getChits s = Panic 65.
Proof.
  intros Hc. unfold getChits. cbn zeta.
  by destruct (Z.ltb_spec max_memory_array_length
                 (Counters.current (chitCounter s))); [|lia].
Qed.

(** One pool more than the longest array: the listing panics. *)
Example getChits_panics :
  getChits (mkStorage (Counters.mkCounter (2 ^ 64)) ∅ ∅) = Panic 65.
Proof. by vm_compute. Qed.

(** ** Counting the creations *)

Lemma created_ids_execute w t :
  length (created_ids (log (execute w t)))
  = (length (created_ids (log w)) + (if creates w t then 1 else 0))%nat.
Proof.
  destruct t as [sender now [tt d total inst limit dl | k | k | ]].
  - rewrite execute_CreateChit. unfold creates, dispatch.
    cbn [tx_call tx_sender tx_timestamp]. unfold mbind, Tx_bind, tx_bind.
    rewrite createChit_unfold.
    repeat (match goal with |- context [negb ?b] => destruct b; cbn [negb] end;
            [|by rewrite Nat.add_0_r]).
    cbn [log]. rewrite created_ids_app, length_app. done.
  - rewrite execute_JoinChit. unfold creates. cbn [tx_call].
    rewrite Nat.add_0_r. rewrite joinChit_unfold. cbn zeta.
    repeat (match goal with |- context [if ?b then _ else _] => destruct b end;
            try done).
    cbn [log]. rewrite created_ids_app. cbn. by rewrite app_nil_r.
  - rewrite execute_view by eauto. unfold creates. cbn [tx_call]. lia.
  - rewrite execute_view by eauto. unfold creates. cbn [tx_call]. lia.
Qed.

Lemma created_ids_run ts : ∀ w,
  length (created_ids (log (run w ts)))
  = (length (created_ids (log w)) + successful_creations w ts)%nat.
Proof.
  induction ts as [|t ts IH]; intros w; cbn [successful_creations].
  - cbn. lia.
  - change (run w (t :: ts)) with (run (execute w t) ts).
    rewrite IH, created_ids_execute. lia.
Qed.

Lemma counter_successful_creations ts :
  feasible ts →
  counter (run deploy ts) = Z.of_nat (successful_creations deploy ts).
Proof.
  intros Hf. pose proof (inv_run ts Hf) as Hinv.
  pose proof (inv_counter _ _ Hinv) as Hc.
  rewrite <- (Nat.add_0_l (successful_creations deploy ts)).
  change 0%nat with (length (created_ids (log deploy))) at 1.
  rewrite <- created_ids_run, (inv_created _ _ Hinv), length_seqZ. lia.
Qed.

(** ** Unallocated slots stay zero *)

Lemma unallocated_zero_step w t w' :
  step w t w' → unallocated_zero w → unallocated_zero w'.
Proof.
  intros Hstep Hz. destruct Hstep as [|tt d total inst limit dl|k0 _ Hid]; [done|..].
  - intros k. cbn [storage log createChit_post chits].
    rewrite created_ids_app. cbn. rewrite elem_of_app, list_elem_of_singleton.
    intros Hk. rewrite lookup_total_insert_ne by (intros E; apply Hk; by right).
    apply Hz. intros E. apply Hk. by left.
  - intros k. cbn [storage log joinChit_post chits].
    rewrite created_ids_app. cbn. rewrite app_nil_r. intros Hk.
    destruct (decide (k0 = k)) as [->|Hne].
    + by rewrite (Hz k Hk) in Hid.
    + rewrite lookup_total_insert_ne by done. by apply Hz.
Qed.

Lemma unallocated_zero_run ts : unallocated_zero (run deploy ts).
Proof.
  induction ts as [|t ts IH] using rev_ind.
  - intros k _. cbn. by rewrite lookup_total_empty.
  - rewrite run_snoc. eapply unallocated_zero_step; [apply execute_step | done].
Qed.

(** ** The scenario, run *)

Example Scenario_trace_log :
  log (run deploy Scenario.trace)
    = [ChitCreated 1 "pool" 1000 2 10; JoinedChit 1 11].
Proof. by vm_compute. Qed.

Example Scenario_trace_participants :
  getParticipants 1 (storage (run deploy Scenario.trace)) = Ok [10; 11].
Proof. by vm_compute. Qed.

Example Scenario_trace_third_member :
  joinChit 12 300 1 (storage (run deploy Scenario.trace))
    = Revert "Chit is full.".
Proof. by vm_compute. Qed.

Example Scenario_no_id_consumed :
  counter (run deploy [Scenario.past_deadline]) = 0 ∧
  created_ids (log (run deploy [Scenario.past_deadline; Scenario.create])) = [1].
Proof. by vm_compute. Qed.

(** ** Queries *)

(** C1, as stated, fails: on a freshly deployed contract no id has been
    allocated, and [getParticipants 1] returns the empty array instead of
    failing with [NotFound]. *)
Lemma getParticipants_unknown_id_counterexample :
  (1 ∉ created_ids (log deploy)) ∧
  getParticipants 1 (storage deploy) = Ok [] ∧
  ¬ fails_with (getParticipants 1 (storage deploy)) NotFound.
Proof.
  split_and!.
  - apply not_elem_of_nil.
  - reflexivity.
  - intros [].
Qed.

(** C1, amended: [getParticipants id] never fails. It returns the stored
    [participants] array of pool [id], which lists the creator and the members
    who joined in the order they were admitted; for an id that no creation
    allocated this is the empty array. The call has no side effects. *)
Theorem getParticipants_returns_members (ts : list Transaction) (k : Z) :
  getParticipants k (storage (run deploy ts))
    = Ok (participants (chits (storage (run deploy ts)) !!! k)) ∧
  participants (chits (storage (run deploy ts)) !!! k)
    = members_of k (log (run deploy ts)) ∧
  (k ∉ created_ids (log (run deploy ts)) →
   getParticipants k (storage (run deploy ts)) = Ok []) ∧
  (∀ sender now,
     execute (run deploy ts) (mkTransaction sender now (GetParticipants k))
       = run deploy ts).
Proof.
  split_and!.
  - reflexivity.
  - apply (li_participants _ (log_inv_run ts)).
  - intros Hk. unfold getParticipants. cbn zeta.
    by rewrite (unallocated_zero_run ts k Hk).
  - intros sender now. apply execute_view. eauto.
Qed.

Lemma getParticipants_returns_members_witness :
  (7 ∉ created_ids (log (run deploy Scenario.trace))) ∧
  getParticipants 7 (storage (run deploy Scenario.trace)) = Ok [].
Proof.
  assert (H : 7 ∉ created_ids (log (run deploy Scenario.trace))).
  { rewrite Scenario_trace_log. cbn.
    apply not_elem_of_cons; split; [done | apply not_elem_of_nil]. }
  split; [exact H|].
  exact (proj1 (proj2 (proj2
           (getParticipants_returns_members Scenario.trace 7))) H).
Defined.

(** ** Joining *)

(** C2: [joinChit] checks existence, then the deadline (it fails with
    [Expired] whenever the current time is at or past the pool's deadline),
    then capacity, then duplicate membership, and the first check that fails
    decides the error; a join on a full pool whose deadline has passed fails
    with [Expired], not [Full]. *)
Theorem joinChit_check_order (s : Storage) (sender : address) (now k : Z) :
  (id (chits s !!! k) = 0 → fails_with (joinChit sender now k s) NotFound) ∧
  (id (chits s !!! k) ≠ 0 →
   deadline (chits s !!! k) ≤ now →
   fails_with (joinChit sender now k s) Expired ∧
   ¬ fails_with (joinChit sender now k s) Full) ∧
  (id (chits s !!! k) ≠ 0 →
   now < deadline (chits s !!! k) →
   participantLimit (chits s !!! k)
     ≤ Z.of_nat (length (participants (chits s !!! k))) →
   fails_with (joinChit sender now k s) Full) ∧
  (id (chits s !!! k) ≠ 0 →
   now < deadline (chits s !!! k) →
   Z.of_nat (length (participants (chits s !!! k)))
     < participantLimit (chits s !!! k) →
   sender ∈ participants (chits s !!! k) →
   fails_with (joinChit sender now k s) AlreadyJoined) ∧
  (id (chits s !!! k) ≠ 0 →
   now < deadline (chits s !!! k) →
   Z.of_nat (length (participants (chits s !!! k)))
     < participantLimit (chits s !!! k) →
   sender ∉ participants (chits s !!! k) →
   joinChit sender now k s
     = Ok (tt, joinChit_post s sender k, [JoinedChit k sender])).
Proof.
  split_and!.
  - intros Hid. rewrite joinChit_not_found by done. reason_in.
  - intros Hid Hdl. rewrite joinChit_expired by done.
    split; [reason_in|]. intros H. reason_out H.
  - intros Hid Hdl Hcap. rewrite joinChit_full by done. reason_in.
  - intros Hid Hdl Hcap Hin. rewrite joinChit_already_joined by done. reason_in.
  - intros Hid Hdl Hcap Hin. by apply joinChit_ok.
Qed.

Lemma joinChit_check_order_witness :
  id (chits (storage (run deploy Scenario.trace)) !!! 1) ≠ 0 ∧
  deadline (chits (storage (run deploy Scenario.trace)) !!! 1) ≤ 4000 ∧
  participantLimit (chits (storage (run deploy Scenario.trace)) !!! 1)
    ≤ Z.of_nat (length (participants
                          (chits (storage (run deploy Scenario.trace)) !!! 1))) ∧
  fails_with (joinChit 12 4000 1 (storage (run deploy Scenario.trace))) Expired ∧
  ¬ fails_with (joinChit 12 4000 1 (storage (run deploy Scenario.trace))) Full.
Proof.
  assert (H1 : id (chits (storage (run deploy Scenario.trace)) !!! 1) ≠ 0)
    by (by vm_compute).
  assert (H2 : deadline (chits (storage (run deploy Scenario.trace)) !!! 1)
               ≤ 4000) by (by vm_compute).
  split_and!; [exact H1 | exact H2 | by vm_compute | ..];
    apply (proj1 (proj2 (joinChit_check_order
                           (storage (run deploy Scenario.trace)) 12 4000 1))
             H1 H2).
Defined.

(** ** The membership index *)

(** C5: after every sequence of operations, [userChits[m]] contains pool id
    [p] if and only if [m] appears in [chits[p].participants]. *)
Theorem userChits_consistent (ts : list Transaction) (m : address) (p : Z) :
  p ∈ userChits (storage (run deploy ts)) !!! m ↔
  m ∈ participants (chits (storage (run deploy ts)) !!! p).
Proof.
  destruct (log_inv_run ts) as [Hp Hu].
  rewrite Hp, Hu. apply pools_of_members_of.
Qed.

(** ** Identifier allocation *)

(** C3: over any sequence of calls, the ids announced by the successful
    creations are exactly 1, 2, 3, ... in commit order. A creation that fails
    leaves the chain, and so the counter, as it was; one that succeeds gets the
    id after the last one allocated. ([feasible]: the run is short enough
    for the 256-bit counter not to wrap.) *)
Theorem created_ids_consecutive (ts : list Transaction) :
  feasible ts →
  created_ids (log (run deploy ts)) = seqZ 1 (counter (run deploy ts)) ∧
  counter (run deploy ts)
    = Z.of_nat (length (created_ids (log (run deploy ts)))) ∧
  (∀ sender now t d total inst limit dl,
     match createChit sender now t d total inst limit dl
                      (storage (run deploy ts)) with
     | Ok (_, s', evs) =>
         evs = [ChitCreated (counter (run deploy ts) + 1) t total limit sender] ∧
         Counters.current (chitCounter s') = counter (run deploy ts) + 1
     | _ =>
         execute (run deploy ts)
                 (mkTransaction sender now (CreateChit t d total inst limit dl))
           = run deploy ts
     end).
Proof.
  intros Hf. pose proof (inv_run ts Hf) as Hinv.
  pose proof (inv_counter _ _ Hinv) as Hc.
  split_and!.
  - apply (inv_created _ _ Hinv).
  - rewrite (inv_created _ _ Hinv), length_seqZ. lia.
  - intros sender now t d total inst limit dl.
    rewrite execute_CreateChit, createChit_unfold.
    repeat (match goal with |- context [negb ?b] => destruct b; cbn [negb] end;
            try done).
    assert (Counters.current
              (Counters.increment (chitCounter (storage (run deploy ts))))
            = counter (run deploy ts) + 1) as Hk0.
    { apply increment_no_wrap. unfold feasible, counter in *. lia. }
    split; [by rewrite Hk0 | exact Hk0].
Qed.

Lemma created_ids_consecutive_witness :
  feasible Scenario.trace ∧
  created_ids (log (run deploy Scenario.trace))
    = seqZ 1 (counter (run deploy Scenario.trace)).
Proof.
  assert (Hf : feasible Scenario.trace) by (by vm_compute).
  split; [exact Hf|].
  exact (proj1 (created_ids_consecutive Scenario.trace Hf)).
Defined.

(** ** Capacity *)

(** C4: after every sequence of operations every stored pool has at most
    [participantLimit] participants; the members ever admitted to a pool
    (its creator and those who joined) are distinct and at most
    [participantLimit] many; and a join on an existing pool before its
    deadline that is at capacity fails with [Full]. ([feasible]: the run is
    short enough for the 256-bit counter not to wrap.) *)
Theorem participants_within_limit (ts : list Transaction) :
  feasible ts →
  (∀ k ch, chits (storage (run deploy ts)) !! k = Some ch →
           Z.of_nat (length (participants ch)) ≤ participantLimit ch) ∧
  (∀ k, NoDup (members_of k (log (run deploy ts))) ∧
        Z.of_nat (length (members_of k (log (run deploy ts))))
          ≤ participantLimit (chits (storage (run deploy ts)) !!! k)) ∧
  (∀ sender now k,
     id (chits (storage (run deploy ts)) !!! k) ≠ 0 →
     now < deadline (chits (storage (run deploy ts)) !!! k) →
     participantLimit (chits (storage (run deploy ts)) !!! k)
       ≤ Z.of_nat (length (participants
                             (chits (storage (run deploy ts)) !!! k))) →
     fails_with (joinChit sender now k (storage (run deploy ts))) Full).
Proof.
  intros Hf. pose proof (inv_run ts Hf) as Hinv.
  assert (Hall : ∀ k,
    NoDup (participants (chits (storage (run deploy ts)) !!! k)) ∧
    Z.of_nat (length (participants (chits (storage (run deploy ts)) !!! k)))
      ≤ participantLimit (chits (storage (run deploy ts)) !!! k)).
  { intros k. destruct (decide (1 ≤ k ≤ counter (run deploy ts))) as [Hk|Hk].
    - destruct (inv_chit _ _ Hinv k Hk) as (ch & Hch & Hok).
      rewrite (lookup_total_correct _ _ _ Hch).
      split; [apply (ok_nodup _ _ Hok) | apply (ok_capacity _ _ Hok)].
    - rewrite (inv_fresh_zero _ _ _ Hinv Hk). cbn. split; [apply NoDup_nil_2|done]. }
  split_and!.
  - intros k ch Hch. specialize (Hall k).
    rewrite (lookup_total_correct _ _ _ Hch) in Hall. apply Hall.
  - intros k. rewrite <- (li_participants _ (log_inv_run ts)). apply Hall.
  - intros sender now k Hid Hdl Hcap. rewrite joinChit_full by done. reason_in.
Qed.

Lemma participants_within_limit_witness :
  feasible Scenario.trace ∧
  fails_with (joinChit 12 300 1 (storage (run deploy Scenario.trace))) Full.
Proof.
  assert (Hf : feasible Scenario.trace) by (by vm_compute).
  split; [exact Hf|].
  apply (proj2 (proj2 (participants_within_limit Scenario.trace Hf)) 12 300 1);
    by vm_compute.
Defined.

(** ** Duplicate membership *)

(** C6: on an existing pool, before its deadline and below capacity, a join
    by someone already in [participants] fails with [AlreadyJoined]; this
    includes the pool's creator; and no pool ever lists a member twice.
    ([feasible]: the run is short enough for the 256-bit counter not to
    wrap.) *)
Theorem no_duplicate_members (ts : list Transaction) :
  feasible ts →
  (∀ sender now k,
     id (chits (storage (run deploy ts)) !!! k) ≠ 0 →
     now < deadline (chits (storage (run deploy ts)) !!! k) →
     Z.of_nat (length (participants (chits (storage (run deploy ts)) !!! k)))
       < participantLimit (chits (storage (run deploy ts)) !!! k) →
     sender ∈ participants (chits (storage (run deploy ts)) !!! k) →
     fails_with (joinChit sender now k (storage (run deploy ts)))
                AlreadyJoined) ∧
  (∀ k t a l creator now,
     ChitCreated k t a l creator ∈ log (run deploy ts) →
     now < deadline (chits (storage (run deploy ts)) !!! k) →
     Z.of_nat (length (participants (chits (storage (run deploy ts)) !!! k)))
       < participantLimit (chits (storage (run deploy ts)) !!! k) →
     fails_with (joinChit creator now k (storage (run deploy ts)))
                AlreadyJoined) ∧
  (∀ k, NoDup (participants (chits (storage (run deploy ts)) !!! k))).
Proof.
  intros Hf. pose proof (inv_run ts Hf) as Hinv.
  split_and!.
  - intros sender now k Hid Hdl Hcap Hin.
    rewrite joinChit_already_joined by done. reason_in.
  - intros k t a l creator now Hev Hdl Hcap.
    rewrite joinChit_already_joined; [reason_in | | done | done |].
    + apply (inv_allocated _ _ _ Hinv). by eapply inv_created_range.
    + destruct (inv_creator _ _ Hinv _ _ _ _ _ Hev) as (Hh & _).
      destruct (participants (chits (storage (run deploy ts)) !!! k));
        simplify_eq/=. apply list_elem_of_here.
  - intros k. destruct (decide (1 ≤ k ≤ counter (run deploy ts))) as [Hk|Hk].
    + destruct (inv_chit _ _ Hinv k Hk) as (ch & Hch & Hok).
      rewrite (lookup_total_correct _ _ _ Hch). apply (ok_nodup _ _ Hok).
    + rewrite (inv_fresh_zero _ _ _ Hinv Hk). apply NoDup_nil_2.
Qed.

Lemma no_duplicate_members_witness :
  feasible [Scenario.create] ∧
  ChitCreated 1 "pool" 1000 2 10 ∈ log (run deploy [Scenario.create]) ∧
  fails_with (joinChit 10 200 1 (storage (run deploy [Scenario.create])))
             AlreadyJoined.
Proof.
  assert (Hf : feasible [Scenario.create]) by (by vm_compute).
  assert (Hev : ChitCreated 1 "pool" 1000 2 10
                ∈ log (run deploy [Scenario.create]))
    by (vm_compute; apply list_elem_of_here).
  split_and!; [exact Hf | exact Hev |].
  apply (proj1 (proj2 (no_duplicate_members [Scenario.create] Hf))
           1 "pool" 1000 2 10 200 Hev); by vm_compute.
Defined.

(** ** Creation *)

Lemma string_length_pos (t : string) :
  (0 <? Z.of_nat (String.length t)) = false ↔ t = EmptyString.
Proof.
  destruct t; cbn; [done|]. split; [|done].
  intros H%Z.ltb_ge. lia.
Qed.

(** C7, as stated, fails: with an empty title and a deadline (50) that is
    not after the current time (100), [createChit] fails with the title
    error, which is an [InvalidInput], and not with [InvalidDeadline]. *)
Lemma createChit_InvalidDeadline_counterexample :
  ¬ (100 < 50) ∧
  createChit 1 100 EmptyString "d" 1 1 1 50 (storage deploy)
    = Revert "Title is required." ∧
  ¬ fails_with (createChit 1 100 EmptyString "d" 1 1 1 50 (storage deploy))
               InvalidDeadline.
Proof.
  split_and!; [lia | reflexivity |].
  intros H. reason_out H.
Qed.

(** C7, amended: [createChit] fails with [InvalidInput] exactly when the
    title or description is empty or one of [totalAmount],
    [installmentAmount], [participantLimit] is not positive; it fails with
    [InvalidDeadline] exactly when none of these holds and the deadline is
    not strictly after the current time. On such a failure the chain (store,
    counter, index, log) is unchanged; otherwise the next id is allocated and
    the new pool is stored under it with [participants = [creator]] and
    [createdAt = now], every other pool is untouched, and the id is appended
    to the creator's index entry. ([feasible]: the run is short enough for
    the 256-bit counter not to wrap.) *)
Theorem createChit_outcomes (ts : list Transaction)
    (sender : address) (now : Z) (t d : string) (total inst limit dl : Z) :
  feasible ts →
  (fails_with (createChit sender now t d total inst limit dl
                          (storage (run deploy ts))) InvalidInput
   ↔ invalid_input t d total inst limit) ∧
  (fails_with (createChit sender now t d total inst limit dl
                          (storage (run deploy ts))) InvalidDeadline
   ↔ ¬ invalid_input t d total inst limit ∧ dl ≤ now) ∧
  (invalid_input t d total inst limit ∨ dl ≤ now →
   execute (run deploy ts)
           (mkTransaction sender now (CreateChit t d total inst limit dl))
     = run deploy ts) ∧
  (¬ invalid_input t d total inst limit → now < dl →
   ∃ s',
     createChit sender now t d total inst limit dl (storage (run deploy ts))
       = Ok (tt, s',
             [ChitCreated (counter (run deploy ts) + 1) t total limit sender]) ∧
     Counters.current (chitCounter s') = counter (run deploy ts) + 1 ∧
     chits s' !! (counter (run deploy ts) + 1)
       = Some (mkChit (counter (run deploy ts) + 1) t d total inst dl now limit
                      [sender] false) ∧
     (∀ k, k ≠ counter (run deploy ts) + 1 →
           chits s' !! k = chits (storage (run deploy ts)) !! k) ∧
     userChits s' !!! sender
       = (userChits (storage (run deploy ts)) !!! sender)
           ++ [counter (run deploy ts) + 1] ∧
     (∀ m, m ≠ sender →
           userChits s' !! m = userChits (storage (run deploy ts)) !! m)).
Proof.
  intros Hf. pose proof (inv_run ts Hf) as Hinv.
  pose proof (inv_counter _ _ Hinv) as Hc.
  rewrite execute_CreateChit, createChit_unfold. unfold invalid_input.
  destruct (0 <? Z.of_nat (String.length t)) eqn:Ht; cbn [negb].
  2:{ apply string_length_pos in Ht. split_and!; try tauto.
      - split; [tauto|]. intros _. reason_in.
      - split; [|tauto]. intros H. reason_out H. }
  destruct (0 <? Z.of_nat (String.length d)) eqn:Hd; cbn [negb].
  2:{ apply string_length_pos in Hd. split_and!; try tauto.
      - split; [tauto|]. intros _. reason_in.
      - split; [|tauto]. intros H. reason_out H. }
  assert (t ≠ EmptyString) by (intros E%string_length_pos; congruence).
  assert (d ≠ EmptyString) by (intros E%string_length_pos; congruence).
  destruct (Z.ltb_spec 0 total); cbn [negb].
  2:{ split_and!; try tauto.
      - split; [tauto|]. intros _. reason_in.
      - split; [|tauto]. intros H'. reason_out H'. }
  destruct (Z.ltb_spec 0 inst); cbn [negb].
  2:{ split_and!; try tauto.
      - split; [tauto|]. intros _. reason_in.
      - split; [|tauto]. intros H'. reason_out H'. }
  destruct (Z.ltb_spec 0 limit); cbn [negb].
  2:{ split_and!; try tauto.
      - split; [tauto|]. intros _. reason_in.
      - split; [|tauto]. intros H'. reason_out H'. }
  assert (Hvalid : ¬ (t = EmptyString ∨ d = EmptyString ∨ total ≤ 0 ∨ inst ≤ 0 ∨ limit ≤ 0))
    by (intros [?|[?|[?|[?|?]]]]; done || lia).
  destruct (Z.ltb_spec now dl); cbn [negb].
  2:{ split_and!; try done.
      - split; [|tauto]. intros H'. reason_out H'.
      - split; [done|]. intros _. reason_in.
      - intros _ ?. lia. }
  assert (Hk0 : Counters.current
                  (Counters.increment (chitCounter (storage (run deploy ts))))
                = counter (run deploy ts) + 1).
  { apply increment_no_wrap. unfold feasible, counter in *. lia. }
  assert (Hz : chits (storage (run deploy ts)) !!! (counter (run deploy ts) + 1)
               = zeroChit).
  { apply (inv_fresh_zero _ _ _ Hinv). lia. }
  split_and!.
  - split; [done | tauto].
  - split; [done | intros [_ ?]; lia].
  - intros [?|?]; [tauto | lia].
  - intros _ _. eexists. split; [by rewrite Hk0|].
    unfold createChit_post. cbn zeta.
    cbn [chitCounter chits userChits]. rewrite Hk0, Hz.
    split_and!.
    + done.
    + by rewrite lookup_insert_eq.
    + intros k Hk. by rewrite lookup_insert_ne.
    + by rewrite lookup_total_insert_eq.
    + intros m Hm. by rewrite lookup_insert_ne.
Qed.

Lemma createChit_outcomes_witness :
  feasible Scenario.trace ∧
  ¬ invalid_input "b" "c" 5 1 3 ∧ 400 < 9000 ∧
  ∃ s',
    createChit 13 400 "b" "c" 5 1 3 9000 (storage (run deploy Scenario.trace))
      = Ok (tt, s', [ChitCreated (counter (run deploy Scenario.trace) + 1)
                                 "b" 5 3 13]) ∧
    chits s' !! (counter (run deploy Scenario.trace) + 1)
      = Some (mkChit (counter (run deploy Scenario.trace) + 1)
                     "b" "c" 5 1 9000 400 3 [13] false).
Proof.
  assert (Hf : feasible Scenario.trace) by (by vm_compute).
  assert (Hv : ¬ invalid_input "b" "c" 5 1 3).
  { unfold invalid_input. intros [?|[?|[?|[?|?]]]]; done || lia. }
  assert (Hd : 400 < 9000) by lia.
  split_and!; [exact Hf | exact Hv | exact Hd |].
  destruct (proj2 (proj2 (proj2
             (createChit_outcomes Scenario.trace 13 400 "b" "c" 5 1 3 9000 Hf)))
             Hv Hd) as (s' & H1 & _ & H3 & _).
  exists s'. split; [exact H1 | exact H3].
Defined.

(** ** Listing *)

(** C8: after N successful creations [getChits] returns exactly N pools, in
    ascending id order 1..N without gaps: its i-th element is the stored pool
    whose id is i. N counts the [createChit] calls of the run that returned
    normally, and is at most [max_memory_array_length], the longest array the
    function can allocate. ([feasible]: the run is short enough for the
    256-bit counter not to wrap.) *)
Theorem getChits_lists_all (ts : list Transaction) :
  feasible ts →
  Z.of_nat (successful_creations deploy ts) ≤ max_memory_array_length →
  ∃ chitList,
    getChits (storage (run deploy ts)) = Ok chitList ∧
    length chitList = successful_creations deploy ts ∧
    length chitList = length (created_ids (log (run deploy ts))) ∧
    id <$> chitList = seqZ 1 (Z.of_nat (length chitList)) ∧
    (∀ i, (i < length chitList)%nat →
          chitList !! i
            = Some (chits (storage (run deploy ts)) !!! (Z.of_nat i + 1)) ∧
          chits (storage (run deploy ts)) !! (Z.of_nat i + 1)
            = Some (chits (storage (run deploy ts)) !!! (Z.of_nat i + 1)) ∧
          id (chits (storage (run deploy ts)) !!! (Z.of_nat i + 1))
            = Z.of_nat i + 1).
Proof.
  intros Hf HN. pose proof (inv_run ts Hf) as Hinv.
  pose proof (inv_counter _ _ Hinv) as Hc.
  pose proof (counter_successful_creations ts Hf) as Hcount.
  assert (Hid : ∀ j, 1 ≤ j ≤ counter (run deploy ts) →
    chits (storage (run deploy ts)) !! j
      = Some (chits (storage (run deploy ts)) !!! j) ∧
    id (chits (storage (run deploy ts)) !!! j) = j).
  { intros j Hj. destruct (inv_chit _ _ Hinv j Hj) as (ch & Hch & Hok).
    rewrite (lookup_total_correct _ _ _ Hch). split; [done|]. apply Hok. }
  eexists. split.
  { apply getChits_spec. unfold counter in *. lia. }
  fold (counter (run deploy ts)).
  assert (Hlen : length ((λ j, chits (storage (run deploy ts)) !!! j)
                           <$> seqZ 1 (counter (run deploy ts)))
                 = Z.to_nat (counter (run deploy ts))).
  { by rewrite length_fmap, length_seqZ. }
  rewrite Hlen. split_and!.
  - rewrite Hcount. apply Nat2Z.id.
  - by rewrite (inv_created _ _ Hinv), length_seqZ.
  - rewrite Z2Nat.id by lia. rewrite <- list_fmap_compose.
    rewrite <- (list_fmap_id (seqZ 1 (counter (run deploy ts)))) at 2.
    apply list_fmap_ext. intros i j Hj%lookup_seqZ. cbn. apply Hid. lia.
  - intros i Hi. rewrite list_lookup_fmap, lookup_seqZ_lt by lia. cbn.
    rewrite (Z.add_comm 1). split; [done|]. apply Hid. lia.
Qed.

Lemma getChits_lists_all_witness :
  feasible Scenario.trace ∧
  Z.of_nat (successful_creations deploy Scenario.trace)
    ≤ max_memory_array_length ∧
  ∃ chitList,
    getChits (storage (run deploy Scenario.trace)) = Ok chitList ∧
    length chitList = successful_creations deploy Scenario.trace.
Proof.
  assert (Hf : feasible Scenario.trace) by (by vm_compute).
  assert (HN : Z.of_nat (successful_creations deploy Scenario.trace)
               ≤ max_memory_array_length) by (by vm_compute).
  split_and!; [exact Hf | exact HN |].
  destruct (getChits_lists_all Scenario.trace Hf HN) as (l & H1 & H2 & _).
  exists l. split; [exact H1 | exact H2].
Defined.

(** ** Frame *)

(** C9: once a pool is created, later operations change nothing of its
    record but [participants], and that only by appending: every other
    field, [isCompleted] included, keeps its value. Element 0 of
    [participants] is the pool's creator. A [joinChit] appends at most the
    caller to the pool it names and leaves every other pool's record as it
    was. ([feasible]: the run is short enough for the 256-bit counter not to
    wrap.) *)
Theorem pools_only_grow (ts1 ts2 : list Transaction) :
  feasible (ts1 ++ ts2) →
  (∀ k, k ∈ created_ids (log (run deploy ts1)) →
        chit_extends (chits (storage (run deploy ts1)) !!! k)
                     (chits (storage (run deploy (ts1 ++ ts2))) !!! k)) ∧
  (∀ k t a l creator,
     ChitCreated k t a l creator ∈ log (run deploy (ts1 ++ ts2)) →
     participants (chits (storage (run deploy (ts1 ++ ts2))) !!! k) !! 0%nat
       = Some creator) ∧
  (∀ sender now k,
     (participants
        (chits (storage (execute (run deploy ts1)
                                 (mkTransaction sender now (JoinChit k)))) !!! k)
        = participants (chits (storage (run deploy ts1)) !!! k) ∨
      participants
        (chits (storage (execute (run deploy ts1)
                                 (mkTransaction sender now (JoinChit k)))) !!! k)
        = participants (chits (storage (run deploy ts1)) !!! k) ++ [sender]) ∧
     ∀ k', k' ≠ k →
       chits (storage (execute (run deploy ts1)
                               (mkTransaction sender now (JoinChit k)))) !! k'
         = chits (storage (run deploy ts1)) !! k').
Proof.
  intros Hf. pose proof (feasible_app_l _ _ Hf) as Hf1.
  pose proof (inv_run ts1 Hf1) as Hinv1.
  pose proof (inv_run _ Hf) as Hinv.
  split_and!.
  - intros k Hk. rewrite (inv_created _ _ Hinv1) in Hk.
    apply elem_of_seqZ in Hk. rewrite run_app.
    apply (extends_run ts1 ts2 Hf). lia.
  - intros k t a l creator Hev. rewrite <- head_lookup.
    apply (inv_creator _ _ Hinv _ _ _ _ _ Hev).
  - intros sender now k.
    pose proof (execute_step (run deploy ts1)
                  (mkTransaction sender now (JoinChit k))) as Hstep.
    inversion Hstep as [Heq|? ? ? ? ? ? Hcall|k0 Hcall _ _ _ _ Heq];
      [|discriminate Hcall|].
    + split; [by left | done].
    + cbn in Hcall. injection Hcall as ->.
      cbn [storage joinChit_post chits tx_sender]. split.
      * right. by rewrite lookup_total_insert_eq.
      * intros k' Hk'. by rewrite lookup_insert_ne.
Qed.

Lemma pools_only_grow_witness :
  feasible ([Scenario.past_deadline; Scenario.create]
            ++ [Scenario.join_second; Scenario.join_third]) ∧
  1 ∈ created_ids (log (run deploy [Scenario.past_deadline; Scenario.create])) ∧
  chit_extends
    (chits (storage (run deploy [Scenario.past_deadline; Scenario.create])) !!! 1)
    (chits (storage (run deploy
                       ([Scenario.past_deadline; Scenario.create]
                        ++ [Scenario.join_second; Scenario.join_third]))) !!! 1).
Proof.
  assert (Hf : feasible ([Scenario.past_deadline; Scenario.create]
                         ++ [Scenario.join_second; Scenario.join_third]))
    by (by vm_compute).
  assert (Hk : 1 ∈ created_ids
                     (log (run deploy [Scenario.past_deadline; Scenario.create])))
    by (vm_compute; apply list_elem_of_here).
  split_and!; [exact Hf | exact Hk |].
  exact (proj1 (pools_only_grow _ _ Hf) 1 Hk).
Defined.

(** ** Existence *)

Lemma joinChit_NotFound_iff s sender now k :
  fails_with (joinChit sender now k s) NotFound ↔ id (chits s !!! k) = 0.
Proof.
  rewrite joinChit_unfold. cbn zeta.
  destruct (Z.eqb_spec (id (chits s !!! k)) 0) as [Hid|Hid].
  { split; [done|]. intros _. reason_in. }
  split; [|done]. intros H.
  repeat (match type of H with
          | context [if ?b then _ else _] => destruct b
          end; try (reason_out H)).
  done.
Qed.

(** C10: every id allocated by a successful creation is at least 1 and its
    record carries that id; nothing is stored under key 0; so [joinChit]
    fails with [NotFound] exactly for the ids never allocated, [joinChit(0)]
    among them. ([feasible]: the run is short enough for the 256-bit counter
    not to wrap.) *)
Theorem allocated_ids_exist (ts : list Transaction) :
  feasible ts →
  (∀ k, k ∈ created_ids (log (run deploy ts)) →
        1 ≤ k ∧ id (chits (storage (run deploy ts)) !!! k) = k) ∧
  chits (storage (run deploy ts)) !! 0 = None ∧
  (∀ sender now k,
     fails_with (joinChit sender now k (storage (run deploy ts))) NotFound
     ↔ k ∉ created_ids (log (run deploy ts))) ∧
  (∀ sender now,
     fails_with (joinChit sender now 0 (storage (run deploy ts))) NotFound).
Proof.
  intros Hf. pose proof (inv_run ts Hf) as Hinv.
  assert (Hrange : ∀ k, k ∈ created_ids (log (run deploy ts))
                        ↔ 1 ≤ k ≤ counter (run deploy ts)).
  { intros k. rewrite (inv_created _ _ Hinv), elem_of_seqZ. lia. }
  split_and!.
  - intros k Hk%Hrange. split; [lia|].
    destruct (inv_chit _ _ Hinv k Hk) as (ch & Hch & Hok).
    rewrite (lookup_total_correct _ _ _ Hch). apply Hok.
  - apply (inv_fresh _ _ Hinv). lia.
  - intros sender now k. rewrite joinChit_NotFound_iff, Hrange.
    rewrite <- (inv_allocated _ _ k Hinv).
    destruct (decide (id (chits (storage (run deploy ts)) !!! k) = 0)); tauto.
  - intros sender now. apply joinChit_NotFound_iff.
    rewrite (inv_fresh_zero _ _ 0 Hinv); [done | lia].
Qed.

Lemma allocated_ids_exist_witness :
  feasible Scenario.trace ∧
  chits (storage (run deploy Scenario.trace)) !! 0 = None ∧
  fails_with (joinChit 11 200 0 (storage (run deploy Scenario.trace))) NotFound.
Proof.
  assert (Hf : feasible Scenario.trace) by (by vm_compute).
  split_and!; [exact Hf | |].
  - exact (proj1 (proj2 (allocated_ids_exist Scenario.trace Hf))).
  - exact (proj2 (proj2 (proj2 (allocated_ids_exist Scenario.trace Hf))) 11 200).
Defined.

(** * Further properties of the contract *)

(** ** Creation, check by check *)

(** X1: [createChit] reports the first check that fails, in the order title,
    description, total amount, installment amount, participant limit,
    deadline; when all pass it emits one [ChitCreated] event carrying the new
    value of the counter. *)
Theorem createChit_first_failing_check (s : Storage) (sender : address)
    (now : Z) (t d : string) (total inst limit dl : Z) :
  (t = EmptyString →
   createChit sender now t d total inst limit dl s
     = Revert "Title is required.") ∧
  (t ≠ EmptyString → d = EmptyString →
   createChit sender now t d total inst limit dl s
     = Revert "Description is required.") ∧
  (t ≠ EmptyString → d ≠ EmptyString → total ≤ 0 →
   createChit sender now t d total inst limit dl s
     = Revert "Total amount must be greater than zero.") ∧
  (t ≠ EmptyString → d ≠ EmptyString → 0 < total → inst ≤ 0 →
   createChit sender now t d total inst limit dl s
     = Revert "Installment amount must be greater than zero.") ∧
  (t ≠ EmptyString → d ≠ EmptyString → 0 < total → 0 < inst → limit ≤ 0 →
   createChit sender now t d total inst limit dl s
     = Revert "Participant limit must be greater than zero.") ∧
  (t ≠ EmptyString → d ≠ EmptyString → 0 < total → 0 < inst → 0 < limit →
   dl ≤ now →
   createChit sender now t d total inst limit dl s
     = Revert "Deadline must be in the future.") ∧
  (t ≠ EmptyString → d ≠ EmptyString → 0 < total → 0 < inst → 0 < limit →
   now < dl →
   ∃ s', createChit sender now t d total inst limit dl s
           = Ok (tt, s', [ChitCreated (Counters.current (chitCounter s'))
                                      t total limit sender])).
Proof.
  rewrite createChit_unfold.
  destruct (0 <? Z.of_nat (String.length t)) eqn:Ht; cbn [negb].
  2:{ apply string_length_pos in Ht. split_and!; intros; done. }
  assert (t ≠ EmptyString) by (intros E%string_length_pos; congruence).
  destruct (0 <? Z.of_nat (String.length d)) eqn:Hd; cbn [negb].
  2:{ apply string_length_pos in Hd. split_and!; intros; done. }
  assert (d ≠ EmptyString) by (intros E%string_length_pos; congruence).
  destruct (Z.ltb_spec 0 total); cbn [negb];
    [|split_and!; intros; done || lia].
  destruct (Z.ltb_spec 0 inst); cbn [negb];
    [|split_and!; intros; done || lia].
  destruct (Z.ltb_spec 0 limit); cbn [negb];
    [|split_and!; intros; done || lia].
  destruct (Z.ltb_spec now dl); cbn [negb];
    [|split_and!; intros; done || lia].
  split_and!; intros; try (done || lia).
  by exists (createChit_post s sender now t d total inst limit dl).
Qed.

Lemma createChit_first_failing_check_witness :
  EmptyString = EmptyString ∧
  createChit 10 100 EmptyString EmptyString 0 0 0 0 (storage deploy)
    = Revert "Title is required.".
Proof.
  split; [reflexivity|].
  exact (proj1 (createChit_first_failing_check
                  (storage deploy) 10 100 EmptyString EmptyString 0 0 0 0)
           eq_refl).
Defined.

(** ** What is stored *)

(** X2: every pool in the store has a non-empty title and description,
    positive amounts and limit, a creation time strictly before its deadline,
    at least one participant, and [isCompleted] false. ([feasible]: the run
    is short enough for the 256-bit counter not to wrap.) *)
Theorem stored_pools_well_formed (ts : list Transaction) (k : Z) (ch : Chit) :
  feasible ts →
  chits (storage (run deploy ts)) !! k = Some ch →
  title ch ≠ EmptyString ∧ description ch ≠ EmptyString ∧
  0 < totalAmount ch ∧ 0 < installmentAmount ch ∧ 0 < participantLimit ch ∧
  createdAt ch < deadline ch ∧
  participants ch ≠ [] ∧
  isCompleted ch = false.
Proof.
  intros Hf Hch. pose proof (inv_run ts Hf) as Hinv.
  assert (Hk : 1 ≤ k ≤ counter (run deploy ts)).
  { destruct (decide (1 ≤ k ≤ counter (run deploy ts))) as [|Hn]; [done|].
    by rewrite (inv_fresh _ _ Hinv k Hn) in Hch. }
  destruct (inv_chit _ _ Hinv k Hk) as (ch' & Hch' & Hok).
  simplify_eq. destruct Hok. split_and!; try done.
  - intros E. rewrite E in *. cbn in *. lia.
  - intros E. rewrite E in *. cbn in *. lia.
  - assert (Hin : k ∈ created_ids (log (run deploy ts))).
    { rewrite (inv_created _ _ Hinv). apply elem_of_seqZ. lia. }
    apply list_elem_of_omap in Hin as ([k' t a l c|] & Hev & E); simplify_eq.
    destruct (inv_creator _ _ Hinv _ _ _ _ _ Hev) as (Hh & _).
    rewrite (lookup_total_correct _ _ _ Hch) in Hh.
    intros E. by rewrite E in Hh.
Qed.

Lemma stored_pools_well_formed_witness :
  feasible Scenario.trace ∧
  chits (storage (run deploy Scenario.trace)) !! 1
    = Some (mkChit 1 "pool" "monthly" 1000 100 3700 100 2 [10; 11] false) ∧
  100 < 3700.
Proof.
  assert (Hf : feasible Scenario.trace) by (by vm_compute).
  assert (Hch : chits (storage (run deploy Scenario.trace)) !! 1
                = Some (mkChit 1 "pool" "monthly" 1000 100 3700 100 2
                               [10; 11] false)) by (by vm_compute).
  split_and!; [exact Hf | exact Hch |].
  exact (proj1 (proj2 (proj2 (proj2 (proj2 (proj2
           (stored_pools_well_formed Scenario.trace 1 _ Hf Hch))))))).
Defined.

(** X3: what a [ChitCreated] event announced stays true of the stored pool:
    its id, title, total amount and participant limit are those of the event,
    and the event's creator is its first participant. ([feasible]: the run
    is short enough for the 256-bit counter not to wrap.) *)
Theorem ChitCreated_matches_record (ts : list Transaction)
    (k : Z) (t : string) (a l : Z) (c : address) :
  feasible ts →
  ChitCreated k t a l c ∈ log (run deploy ts) →
  ∃ ch, chits (storage (run deploy ts)) !! k = Some ch ∧
        id ch = k ∧ title ch = t ∧ totalAmount ch = a ∧
        participantLimit ch = l ∧ head (participants ch) = Some c.
Proof.
  intros Hf Hev. pose proof (inv_run ts Hf) as Hinv.
  pose proof (inv_created_range _ _ _ _ _ _ _ Hinv Hev) as Hk.
  destruct (inv_chit _ _ Hinv k Hk) as (ch & Hch & Hok).
  destruct (inv_creator _ _ Hinv _ _ _ _ _ Hev) as (Hh & Ht & Ha & Hl).
  rewrite (lookup_total_correct _ _ _ Hch) in Hh, Ht, Ha, Hl.
  exists ch. split_and!; try done. apply Hok.
Qed.

Lemma ChitCreated_matches_record_witness :
  feasible Scenario.trace ∧
  ChitCreated 1 "pool" 1000 2 10 ∈ log (run deploy Scenario.trace) ∧
  ∃ ch, chits (storage (run deploy Scenario.trace)) !! 1 = Some ch ∧
        id ch = 1 ∧ title ch = "pool" ∧ totalAmount ch = 1000 ∧
        participantLimit ch = 2 ∧ head (participants ch) = Some 10.
Proof.
  assert (Hf : feasible Scenario.trace) by (by vm_compute).
  assert (Hev : ChitCreated 1 "pool" 1000 2 10 ∈ log (run deploy Scenario.trace))
    by (vm_compute; apply list_elem_of_here).
  split_and!; [exact Hf | exact Hev |].
  exact (ChitCreated_matches_record Scenario.trace 1 "pool" 1000 2 10 Hf Hev).
Defined.

(** ** A successful join *)

Lemma joinChit_Ok_inv s sender now k r :
  joinChit sender now k s = Ok r →
  r = (tt, joinChit_post s sender k, [JoinedChit k sender]) ∧
  id (chits s !!! k) ≠ 0 ∧
  now < deadline (chits s !!! k) ∧
  Z.of_nat (length (participants (chits s !!! k)))
    < participantLimit (chits s !!! k) ∧
  sender ∉ participants (chits s !!! k).
Proof.
  rewrite joinChit_unfold. cbn zeta.
  destruct (Z.eqb_spec (id (chits s !!! k)) 0); [done|].
  destruct (Z.ltb_spec now (deadline (chits s !!! k))); [|done].
  destruct (Z.ltb_spec (Z.of_nat (length (participants (chits s !!! k))))
              (participantLimit (chits s !!! k))); [|done].
  cbn [negb]. case_bool_decide; [done|].
  intros [= <-]. done.
Qed.

(** X4: when [joinChit] succeeds the pool existed, its deadline had not
    passed, it had room and the caller was not yet in it; the call appends the
    caller to that pool's participants and the pool id to the caller's index
    entry, emits one [JoinedChit] event, and changes nothing else: not the
    counter, not the pool's other fields, no other pool, no other member's
    index entry. *)
Theorem joinChit_success_effect (s s' : Storage) (sender : address)
    (now k : Z) (evs : list Event) :
  joinChit sender now k s = Ok (tt, s', evs) →
  (id (chits s !!! k) ≠ 0 ∧
   now < deadline (chits s !!! k) ∧
   Z.of_nat (length (participants (chits s !!! k)))
     < participantLimit (chits s !!! k) ∧
   sender ∉ participants (chits s !!! k)) ∧
  evs = [JoinedChit k sender] ∧
  chitCounter s' = chitCounter s ∧
  participants (chits s' !!! k) = participants (chits s !!! k) ++ [sender] ∧
  chit_extends (chits s !!! k) (chits s' !!! k) ∧
  (∀ k', k' ≠ k → chits s' !! k' = chits s !! k') ∧
  userChits s' !!! sender = (userChits s !!! sender) ++ [k] ∧
  (∀ m, m ≠ sender → userChits s' !! m = userChits s !! m).
Proof.
  intros (Hr & Hid & Hdl & Hcap & Hnew)%joinChit_Ok_inv.
  injection Hr as -> ->. unfold joinChit_post. cbn [chitCounter chits userChits].
  rewrite !lookup_total_insert_eq.
  split_and!; try done.
  - apply chit_extends_push.
  - intros k' Hk'. by rewrite lookup_insert_ne.
  - intros m Hm. by rewrite lookup_insert_ne.
Qed.

Lemma joinChit_success_effect_witness :
  joinChit 11 200 1 (storage (run deploy [Scenario.create]))
    = Ok (tt, storage (run deploy [Scenario.create; Scenario.join_second]),
          [JoinedChit 1 11]) ∧
  participants
    (chits (storage (run deploy [Scenario.create; Scenario.join_second])) !!! 1)
    = participants (chits (storage (run deploy [Scenario.create])) !!! 1)
        ++ [11].
Proof.
  assert (H : joinChit 11 200 1 (storage (run deploy [Scenario.create]))
              = Ok (tt, storage (run deploy [Scenario.create;
                                             Scenario.join_second]),
                    [JoinedChit 1 11])) by (by vm_compute).
  split; [exact H|].
  exact (proj1 (proj2 (proj2 (proj2
           (joinChit_success_effect _ _ _ _ _ _ H))))).
Defined.

(** X5: nobody joins the same pool twice. Once [joinChit] has succeeded for
    a caller, [_isParticipant] holds of them, and whenever a caller is among
    a pool's participants a [joinChit] of theirs on that pool reverts, at any
    time. *)
Theorem joinChit_twice_reverts (s : Storage) (sender : address) (now k : Z) :
  (∀ s' evs, joinChit sender now k s = Ok (tt, s', evs) →
             _isParticipant k sender s' = true) ∧
  (sender ∈ participants (chits s !!! k) →
   ∀ now', ∃ reason, joinChit sender now' k s = Revert reason).
Proof.
  split.
  - intros s' evs (Hr & _)%joinChit_Ok_inv. injection Hr as -> ->.
    unfold _isParticipant, joinChit_post. cbn [chits].
    rewrite _isParticipant_scan_spec, lookup_total_insert_eq. cbn.
    apply bool_decide_eq_true. apply elem_of_app. right.
    apply list_elem_of_here.
  - intros Hin now'. rewrite joinChit_unfold. cbn zeta.
    destruct (id (chits s !!! k) =? 0); [by eexists|].
    destruct (negb (now' <? deadline (chits s !!! k))); [by eexists|].
    destruct (negb (Z.of_nat (length (participants (chits s !!! k)))
                    <? participantLimit (chits s !!! k))); [by eexists|].
    rewrite bool_decide_eq_true_2 by done. by eexists.
Qed.

Lemma joinChit_twice_reverts_witness :
  11 ∈ participants (chits (storage (run deploy Scenario.trace)) !!! 1) ∧
  ∃ reason,
    joinChit 11 250 1 (storage (run deploy Scenario.trace)) = Revert reason.
Proof.
  assert (H : 11 ∈ participants
                     (chits (storage (run deploy Scenario.trace)) !!! 1))
    by (vm_compute; apply list_elem_of_further, list_elem_of_here).
  split; [exact H|].
  exact (proj2 (joinChit_twice_reverts
                  (storage (run deploy Scenario.trace)) 11 200 1) H 250).
Defined.

(** ** The membership index, entry by entry *)

Lemma pools_of_created m k t a l c :
  pools_of m [ChitCreated k t a l c] = if decide (c = m) then [k] else [].
Proof. unfold pools_of. cbn. by case_decide. Qed.

Lemma pools_of_joined m k p :
  pools_of m [JoinedChit k p] = if decide (p = m) then [k] else [].
Proof. unfold pools_of. cbn. by case_decide. Qed.

Lemma pools_of_NoDup_step n w t w' :
  inv n w → Z.of_nat n < max_uint256 → log_inv w → step w t w' →
  (∀ m, NoDup (pools_of m (log w))) → ∀ m, NoDup (pools_of m (log w')).
Proof.
  intros Hinv Hn [Hp Hu] Hstep Hnd m.
  pose proof (inv_counter _ _ Hinv) as Hc.
  destruct Hstep as [|tt d total inst limit dl _ _ _ _ _ _ _|k _ _ _ _ Hnew];
    [done|..]; cbn [log]; rewrite pools_of_app.
  - rewrite pools_of_created, increment_no_wrap by counter_lia.
    case_decide as Hm; [|by rewrite app_nil_r]. subst m.
    apply NoDup_app. split_and!; [done| |apply NoDup_singleton].
    intros p Hin%pools_of_members_of ->%list_elem_of_singleton.
    rewrite <- Hp in Hin.
    rewrite (inv_fresh_zero _ _ _ Hinv) in Hin by counter_lia.
    by apply not_elem_of_nil in Hin.
  - rewrite pools_of_joined.
    case_decide as Hm; [|by rewrite app_nil_r]. subst m.
    apply NoDup_app. split_and!; [done| |apply NoDup_singleton].
    intros p Hin%pools_of_members_of ->%list_elem_of_singleton.
    by rewrite <- Hp in Hin.
Qed.

Lemma pools_of_NoDup_run ts m :
  feasible ts → NoDup (pools_of m (log (run deploy ts))).
Proof.
  revert m. induction ts as [|t ts IH] using rev_ind; intros m Hf.
  - apply NoDup_nil_2.
  - pose proof (feasible_app_l _ _ Hf) as Hf'. rewrite run_snoc.
    eapply (pools_of_NoDup_step (length ts) (run deploy ts) t);
      [by apply inv_run | done | apply log_inv_run | apply execute_step |].
    intros m'. by apply IH.
Qed.

(** X6: a member's index entry [userChits[m]] lists the pools the member was
    admitted to in the order of admission, each of them once, and every id in
    it is the id of an allocated pool. ([feasible]: the run is short enough
    for the 256-bit counter not to wrap.) *)
Theorem userChits_entries (ts : list Transaction) (m : address) :
  feasible ts →
  userChits (storage (run deploy ts)) !!! m = pools_of m (log (run deploy ts)) ∧
  NoDup (userChits (storage (run deploy ts)) !!! m) ∧
  (∀ p, p ∈ userChits (storage (run deploy ts)) !!! m →
        p ∈ created_ids (log (run deploy ts)) ∧
        id (chits (storage (run deploy ts)) !!! p) = p).
Proof.
  intros Hf. pose proof (inv_run ts Hf) as Hinv.
  destruct (log_inv_run ts) as [Hp Hu]. rewrite Hu.
  split_and!; [done | by apply pools_of_NoDup_run |].
  intros p Hin%pools_of_members_of. rewrite <- Hp in Hin.
  assert (Hk : 1 ≤ p ≤ counter (run deploy ts)).
  { destruct (decide (1 ≤ p ≤ counter (run deploy ts))) as [|Hn]; [done|].
    rewrite (inv_fresh_zero _ _ _ Hinv Hn) in Hin.
    by apply not_elem_of_nil in Hin. }
  split.
  - rewrite (inv_created _ _ Hinv). apply elem_of_seqZ. lia.
  - destruct (inv_chit _ _ Hinv p Hk) as (ch & Hch & Hok).
    rewrite (lookup_total_correct _ _ _ Hch). apply Hok.
Qed.

Lemma userChits_entries_witness :
  feasible Scenario.trace ∧
  NoDup (userChits (storage (run deploy Scenario.trace)) !!! 11).
Proof.
  assert (Hf : feasible Scenario.trace) by (by vm_compute).
  split; [exact Hf|].
  exact (proj1 (proj2 (userChits_entries Scenario.trace 11 Hf))).
Defined.

(** ** Pools that can no longer change *)

(** A transaction that cannot join record [r]: it is stamped at or after
    [r]'s deadline, or [r] is full. *)
Lemma frozen_step n w t w' k :
  inv n w → Z.of_nat n < max_uint256 → step w t w' →
  1 ≤ k ≤ counter w →
  deadline (chits (storage w) !!! k) ≤ tx_timestamp t ∨
  participantLimit (chits (storage w) !!! k)
    ≤ Z.of_nat (length (participants (chits (storage w) !!! k))) →
  chits (storage w') !!! k = chits (storage w) !!! k.
Proof.
  intros Hinv Hn Hstep Hk Hblocked. pose proof (inv_counter _ _ Hinv) as Hc.
  destruct Hstep as [|tt d total inst limit dl _ _ _ _ _ _ _|k0 _ _ Hdl Hcap _];
    [done|..].
  - unfold createChit_post. cbn [storage chits].
    rewrite increment_no_wrap by counter_lia.
    rewrite lookup_total_insert_ne by counter_lia. done.
  - unfold joinChit_post. cbn [storage chits].
    destruct (decide (k0 = k)) as [->|Hne]; [lia|].
    by rewrite lookup_total_insert_ne.
Qed.

Lemma frozen_run ts1 ts2 k :
  feasible (ts1 ++ ts2) →
  1 ≤ k ≤ counter (run deploy ts1) →
  Forall (λ t,
    deadline (chits (storage (run deploy ts1)) !!! k) ≤ tx_timestamp t ∨
    participantLimit (chits (storage (run deploy ts1)) !!! k)
      ≤ Z.of_nat (length (participants
                            (chits (storage (run deploy ts1)) !!! k)))) ts2 →
  chits (storage (run deploy (ts1 ++ ts2))) !!! k
    = chits (storage (run deploy ts1)) !!! k.
Proof.
  induction ts2 as [|t ts2 IH] using rev_ind; intros Hf Hk Hall.
  - by rewrite app_nil_r.
  - rewrite app_assoc in Hf |- *. pose proof (feasible_app_l _ _ Hf) as Hf'.
    apply Forall_app in Hall as [Hall Ht]. rewrite Forall_singleton in Ht.
    specialize (IH Hf' Hk Hall). rewrite run_snoc.
    rewrite <- IH in Ht |- *.
    eapply frozen_step;
      [by apply inv_run | done | apply execute_step | | done].
    pose proof (extends_run ts1 ts2 Hf') as [Hle _].
    rewrite <- run_app in Hle. lia.
Qed.

(** X7: after its deadline a pool is final. If every later transaction is
    stamped at or after the deadline of an allocated pool, the pool's record,
    and with it what [getParticipants] returns, is the same after them as
    before. ([feasible]: the run is short enough for the 256-bit counter not
    to wrap.) *)
Theorem pool_final_after_deadline (ts1 ts2 : list Transaction) (k : Z) :
  feasible (ts1 ++ ts2) →
  k ∈ created_ids (log (run deploy ts1)) →
  Forall (λ t, deadline (chits (storage (run deploy ts1)) !!! k)
               ≤ tx_timestamp t) ts2 →
  chits (storage (run deploy (ts1 ++ ts2))) !!! k
    = chits (storage (run deploy ts1)) !!! k ∧
  getParticipants k (storage (run deploy (ts1 ++ ts2)))
    = getParticipants k (storage (run deploy ts1)).
Proof.
  intros Hf Hk Hall.
  pose proof (inv_run ts1 (feasible_app_l _ _ Hf)) as Hinv.
  rewrite (inv_created _ _ Hinv) in Hk. apply elem_of_seqZ in Hk.
  assert (chits (storage (run deploy (ts1 ++ ts2))) !!! k
          = chits (storage (run deploy ts1)) !!! k) as Heq.
  { apply frozen_run; [done | lia |].
    eapply Forall_impl; [exact Hall|]. cbn. intros; by left. }
  split; [done|]. unfold getParticipants. cbn zeta. by rewrite Heq.
Qed.

Lemma pool_final_after_deadline_witness :
  feasible ([Scenario.create]
            ++ [mkTransaction 11 3700 (JoinChit 1);
                mkTransaction 12 5000 (JoinChit 1)]) ∧
  1 ∈ created_ids (log (run deploy [Scenario.create])) ∧
  Forall (λ t, deadline (chits (storage (run deploy [Scenario.create])) !!! 1)
               ≤ tx_timestamp t)
         [mkTransaction 11 3700 (JoinChit 1);
          mkTransaction 12 5000 (JoinChit 1)] ∧
  getParticipants 1
    (storage (run deploy ([Scenario.create]
                          ++ [mkTransaction 11 3700 (JoinChit 1);
                              mkTransaction 12 5000 (JoinChit 1)])))
    = getParticipants 1 (storage (run deploy [Scenario.create])).
Proof.
  assert (Hf : feasible ([Scenario.create]
                         ++ [mkTransaction 11 3700 (JoinChit 1);
                             mkTransaction 12 5000 (JoinChit 1)]))
    by (by vm_compute).
  assert (Hk : 1 ∈ created_ids (log (run deploy [Scenario.create])))
    by (vm_compute; apply list_elem_of_here).
  assert (Hall : Forall
            (λ t, deadline (chits (storage (run deploy [Scenario.create])) !!! 1)
                  ≤ tx_timestamp t)
            [mkTransaction 11 3700 (JoinChit 1);
             mkTransaction 12 5000 (JoinChit 1)]).
  { repeat constructor; by vm_compute. }
  split_and!; [exact Hf | exact Hk | exact Hall |].
  exact (proj2 (pool_final_after_deadline _ _ 1 Hf Hk Hall)).
Defined.

(** X8: a full pool is final. Once an allocated pool has as many
    participants as its limit, no sequence of transactions changes its
    record. ([feasible]: the run is short enough for the 256-bit counter not
    to wrap.) *)
Theorem full_pool_final (ts1 ts2 : list Transaction) (k : Z) :
  feasible (ts1 ++ ts2) →
  k ∈ created_ids (log (run deploy ts1)) →
  participantLimit (chits (storage (run deploy ts1)) !!! k)
    ≤ Z.of_nat (length (participants
                          (chits (storage (run deploy ts1)) !!! k))) →
  chits (storage (run deploy (ts1 ++ ts2))) !!! k
    = chits (storage (run deploy ts1)) !!! k.
Proof.
  intros Hf Hk Hfull.
  pose proof (inv_run ts1 (feasible_app_l _ _ Hf)) as Hinv.
  rewrite (inv_created _ _ Hinv) in Hk. apply elem_of_seqZ in Hk.
  apply frozen_run; [done | lia |].
  apply Forall_forall. intros; by right.
Qed.

Lemma full_pool_final_witness :
  feasible ([Scenario.create; Scenario.join_second]
            ++ [Scenario.join_third; Scenario.create]) ∧
  1 ∈ created_ids (log (run deploy [Scenario.create; Scenario.join_second])) ∧
  participantLimit
    (chits (storage (run deploy [Scenario.create; Scenario.join_second])) !!! 1)
    ≤ Z.of_nat (length (participants
         (chits (storage (run deploy [Scenario.create; Scenario.join_second]))
            !!! 1))) ∧
  chits (storage (run deploy ([Scenario.create; Scenario.join_second]
                              ++ [Scenario.join_third; Scenario.create]))) !!! 1
    = chits (storage (run deploy [Scenario.create; Scenario.join_second])) !!! 1.
Proof.
  assert (Hf : feasible ([Scenario.create; Scenario.join_second]
                         ++ [Scenario.join_third; Scenario.create]))
    by (by vm_compute).
  assert (Hk : 1 ∈ created_ids
                     (log (run deploy [Scenario.create; Scenario.join_second])))
    by (vm_compute; apply list_elem_of_here).
  assert (Hfull : participantLimit
      (chits (storage (run deploy [Scenario.create; Scenario.join_second])) !!! 1)
      ≤ Z.of_nat (length (participants
           (chits (storage (run deploy [Scenario.create; Scenario.join_second]))
              !!! 1)))) by (by vm_compute).
  split_and!; [exact Hf | exact Hk | exact Hfull |].
  exact (full_pool_final _ _ 1 Hf Hk Hfull).
Defined.

(** ** The listing and the other queries *)

(** X9: the listing and the per-pool query agree. With more pools than
    [max_memory_array_length], the longest array it can allocate, [getChits]
    panics (0x41). Otherwise it returns normally, and for each pool in its
    result [getParticipants], asked with the pool's [id], returns the
    participants listed there. ([feasible]: the run is short enough for the
    256-bit counter not to wrap.) *)
Theorem getChits_matches_getParticipants (ts : list Transaction) :
  feasible ts →
  (max_memory_array_length < Z.of_nat (successful_creations deploy ts) →
   getChits (storage (run deploy ts)) = Panic 65) ∧
  (Z.of_nat (successful_creations deploy ts) ≤ max_memory_array_length →
   ∃ chitList,
     getChits (storage (run deploy ts)) = Ok chitList ∧
     ∀ i ch, chitList !! i = Some ch →
             chits (storage (run deploy ts)) !! (id ch) = Some ch ∧
             getParticipants (id ch) (storage (run deploy ts))
               = Ok (participants ch)).
Proof.
  intros Hf. pose proof (inv_run ts Hf) as Hinv.
  pose proof (inv_counter _ _ Hinv) as Hc.
  pose proof (counter_successful_creations ts Hf) as Hcount.
  split.
  { intros HN. apply getChits_too_long. unfold counter in *. lia. }
  intros HN. eexists. split.
  { apply getChits_spec. unfold counter in *. lia. }
  fold (counter (run deploy ts)). intros i ch Hi.
  apply list_lookup_fmap_Some in Hi as (j & -> & Hj).
  apply lookup_seqZ in Hj as [-> Hlt].
  destruct (inv_chit _ _ Hinv (1 + Z.of_nat i)) as (ch & Hch & Hok); [lia|].
  rewrite (lookup_total_correct _ _ _ Hch), (ok_id _ _ Hok).
  split; [done|]. unfold getParticipants. cbn zeta.
  by rewrite (lookup_total_correct _ _ _ Hch).
Qed.

Lemma getChits_matches_getParticipants_witness :
  feasible Scenario.trace ∧
  Z.of_nat (successful_creations deploy Scenario.trace)
    ≤ max_memory_array_length ∧
  ∃ chitList, getChits (storage (run deploy Scenario.trace)) = Ok chitList.
Proof.
  assert (Hf : feasible Scenario.trace) by (by vm_compute).
  assert (HN : Z.of_nat (successful_creations deploy Scenario.trace)
               ≤ max_memory_array_length) by (by vm_compute).
  split_and!; [exact Hf | exact HN |].
  destruct (proj2 (getChits_matches_getParticipants Scenario.trace Hf) HN)
    as (l & H & _).
  exists l. exact H.
Defined.

(** X10: the listing only grows. Whatever transactions follow, as long as
    the pools are still at most [max_memory_array_length] many, the longest
    array [getChits] can allocate, [getChits] returns a list at least as
    long as before, and each pool keeps its position in it, with the same
    fields and its earlier participants as a prefix of the later ones.
    ([feasible]: the run is short enough for the 256-bit counter not to
    wrap.) *)
Theorem getChits_only_grows (ts1 ts2 : list Transaction) :
  feasible (ts1 ++ ts2) →
  Z.of_nat (successful_creations deploy (ts1 ++ ts2))
    ≤ max_memory_array_length →
  ∃ l1 l2,
    getChits (storage (run deploy ts1)) = Ok l1 ∧
    getChits (storage (run deploy (ts1 ++ ts2))) = Ok l2 ∧
    (length l1 ≤ length l2)%nat ∧
    ∀ i c1, l1 !! i = Some c1 → ∃ c2, l2 !! i = Some c2 ∧ chit_extends c1 c2.
Proof.
  intros Hf HN. pose proof (feasible_app_l _ _ Hf) as Hf1.
  pose proof (inv_counter _ _ (inv_run ts1 Hf1)) as Hc1.
  pose proof (inv_counter _ _ (inv_run _ Hf)) as Hc2.
  pose proof (counter_successful_creations _ Hf) as Hcount.
  destruct (extends_run ts1 ts2 Hf) as [Hle Hext]. rewrite <- run_app in *.
  do 2 eexists. split_and!.
  - apply getChits_spec. unfold counter in *. lia.
  - apply getChits_spec. unfold counter in *. lia.
  - rewrite !length_fmap, !length_seqZ. unfold counter in *. lia.
  - intros i c1 Hi.
    apply list_lookup_fmap_Some in Hi as (j & -> & Hj).
    apply lookup_seqZ in Hj as [-> Hlt].
    eexists. split.
    + rewrite list_lookup_fmap, lookup_seqZ_lt by (unfold counter in *; lia).
      done.
    + apply Hext. unfold counter in *. lia.
Qed.

Lemma getChits_only_grows_witness :
  feasible ([Scenario.create] ++ [Scenario.join_second; Scenario.create]) ∧
  Z.of_nat (successful_creations deploy
              ([Scenario.create] ++ [Scenario.join_second; Scenario.create]))
    ≤ max_memory_array_length ∧
  ∃ l1 l2,
    getChits (storage (run deploy [Scenario.create])) = Ok l1 ∧
    getChits (storage (run deploy ([Scenario.create]
                ++ [Scenario.join_second; Scenario.create]))) = Ok l2 ∧
    (length l1 ≤ length l2)%nat.
Proof.
  assert (Hf : feasible ([Scenario.create]
                         ++ [Scenario.join_second; Scenario.create]))
    by (by vm_compute).
  assert (HN : Z.of_nat (successful_creations deploy
                 ([Scenario.create] ++ [Scenario.join_second; Scenario.create]))
               ≤ max_memory_array_length) by (by vm_compute).
  split_and!; [exact Hf | exact HN |].
  destruct (getChits_only_grows _ _ Hf HN) as (l1 & l2 & H1 & H2 & H3 & _).
  exists l1, l2. split_and!; [exact H1 | exact H2 | exact H3].
Defined.

(** X11: [_isParticipant] returns true exactly when the address occurs in
    the participants of the pool stored under the given id; for an id with
    no stored pool it returns false. *)
Theorem _isParticipant_spec (s : Storage) (k : Z) (a : address) :
  (_isParticipant k a s = true ↔ a ∈ participants (chits s !!! k)) ∧
  (chits s !! k = None → _isParticipant k a s = false).
Proof.
  unfold _isParticipant. cbn zeta. rewrite _isParticipant_scan_spec. split.
  - apply bool_decide_eq_true.
  - intros Hk. rewrite lookup_total_alt, Hk. cbn.
    apply bool_decide_eq_false. apply not_elem_of_nil.
Qed.

Lemma _isParticipant_spec_witness :
  chits (storage (run deploy Scenario.trace)) !! 5 = None ∧
  _isParticipant 5 10 (storage (run deploy Scenario.trace)) = false.
Proof.
  assert (H : chits (storage (run deploy Scenario.trace)) !! 5 = None)
    by (by vm_compute).
  split; [exact H|].
  exact (proj2 (_isParticipant_spec (storage (run deploy Scenario.trace)) 5 10)
           H).
Defined.

(** ** Creation times *)

Lemma clock_monotone_app_l ts1 ts2 :
  clock_monotone (ts1 ++ ts2) → clock_monotone ts1.
Proof.
  intros H i j t1 t2 Hij H1 H2.
  apply (H i j t1 t2 Hij); by apply lookup_app_l_Some.
Qed.

Lemma createdAt_step n w t w' k :
  inv n w → Z.of_nat n < max_uint256 → step w t w' →
  1 ≤ k ≤ counter w' →
  (1 ≤ k ≤ counter w ∧
   createdAt (chits (storage w') !!! k) = createdAt (chits (storage w) !!! k)) ∨
  (k = counter w + 1 ∧ counter w' = counter w + 1 ∧
   createdAt (chits (storage w') !!! k) = tx_timestamp t).
Proof.
  intros Hinv Hn Hstep. pose proof (inv_counter _ _ Hinv) as Hc.
  pose proof (extends_step _ _ _ _ Hinv Hn Hstep) as [_ Hext].
  destruct Hstep as [|tt d total inst limit dl _ _ _ _ _ _ _|k0 _ _ _ _ _].
  - intros Hk. left. done.
  - clear Hext. unfold counter in *.
    cbn [storage createChit_post chits chitCounter].
    rewrite !increment_no_wrap by lia. intros Hk.
    destruct (decide (k = Counters.current (chitCounter (storage w)) + 1))
      as [->|Hne].
    + right. by rewrite lookup_total_insert_eq.
    + left. split; [lia|]. by rewrite lookup_total_insert_ne.
  - intros Hk. left.
    assert (Hk' : 1 ≤ k ≤ counter w) by (by unfold counter in * ).
    split; [done|]. apply (ext_createdAt _ _ (Hext k Hk')).
Qed.

Lemma createdAt_stamped ts k :
  feasible ts → 1 ≤ k ≤ counter (run deploy ts) →
  ∃ i t, ts !! i = Some t ∧
         createdAt (chits (storage (run deploy ts)) !!! k) = tx_timestamp t.
Proof.
  revert k. induction ts as [|t ts IH] using rev_ind; intros k Hf Hk.
  - cbn in Hk. lia.
  - pose proof (feasible_app_l _ _ Hf) as Hf'. rewrite run_snoc in Hk |- *.
    destruct (createdAt_step _ _ t _ k (inv_run ts Hf') Hf'
                (execute_step _ _) Hk) as [[Hk' ->]|(-> & _ & ->)].
    + destruct (IH k Hf' Hk') as (i & t' & Hi & ->).
      exists i, t'. split; [|done]. by apply lookup_app_l_Some.
    + exists (length ts), t. split; [|done]. apply list_lookup_middle. done.
Qed.

(** X12: pools are created in time order. When block timestamps never go
    back, a pool with a smaller id has a creation time no later than a pool
    with a larger id. ([feasible]: the run is short enough for the 256-bit
    counter not to wrap.) *)
Theorem createdAt_monotone (ts : list Transaction) (i j : Z) :
  feasible ts → clock_monotone ts →
  1 ≤ i → i ≤ j → j ≤ counter (run deploy ts) →
  createdAt (chits (storage (run deploy ts)) !!! i)
    ≤ createdAt (chits (storage (run deploy ts)) !!! j).
Proof.
  revert i j. induction ts as [|t ts IH] using rev_ind;
    intros i j Hf Hmono Hi Hij Hj.
  - cbn in Hj. lia.
  - pose proof (feasible_app_l _ _ Hf) as Hf'.
    pose proof (clock_monotone_app_l _ _ Hmono) as Hmono'.
    rewrite run_snoc in Hj |- *.
    destruct (createdAt_step _ _ t _ j (inv_run ts Hf') Hf'
                (execute_step _ _)) as [[Hj' ->]|(-> & Hc & ->)]; [lia|..].
    + destruct (createdAt_step _ _ t _ i (inv_run ts Hf') Hf'
                  (execute_step _ _)) as [[Hi' ->]|(-> & _ & _)]; [lia|..].
      * apply IH; try done; lia.
      * lia.
    + destruct (createdAt_step _ _ t _ i (inv_run ts Hf') Hf'
                  (execute_step _ _)) as [[Hi' ->]|(_ & _ & ->)]; [lia|..].
      * destruct (createdAt_stamped ts i Hf' Hi') as (n & t' & Hn & ->).
        apply (Hmono n (length ts) t' t).
        -- apply lookup_lt_Some in Hn. lia.
        -- by apply lookup_app_l_Some.
        -- by apply list_lookup_middle.
      * done.
Qed.

Lemma createdAt_monotone_witness :
  feasible [Scenario.create; mkTransaction 12 150 (CreateChit "b" "c" 5 1 3 900)] ∧
  clock_monotone
    [Scenario.create; mkTransaction 12 150 (CreateChit "b" "c" 5 1 3 900)] ∧
  createdAt (chits (storage (run deploy
      [Scenario.create;
       mkTransaction 12 150 (CreateChit "b" "c" 5 1 3 900)])) !!! 1)
  ≤ createdAt (chits (storage (run deploy
      [Scenario.create;
       mkTransaction 12 150 (CreateChit "b" "c" 5 1 3 900)])) !!! 2).
Proof.
  assert (Hf : feasible [Scenario.create;
                         mkTransaction 12 150 (CreateChit "b" "c" 5 1 3 900)])
    by (by vm_compute).
  assert (Hm : clock_monotone
                 [Scenario.create;
                  mkTransaction 12 150 (CreateChit "b" "c" 5 1 3 900)]).
  { intros [|[|i]] [|[|j]] t1 t2 Hij H1 H2; simplify_eq/=; lia. }
  split_and!; [exact Hf | exact Hm |].
  apply (createdAt_monotone _ 1 2 Hf Hm); [lia | lia | by vm_compute].
Defined.

(** ** When a join goes through *)

(** X16: on a reachable state [joinChit] succeeds exactly when the id was
    allocated by a creation, the current time is before the pool's deadline,
    the pool has fewer participants than its limit and the caller is not one
    of them. ([feasible]: the run is short enough for the 256-bit counter
    not to wrap.) *)
Theorem joinChit_succeeds_iff (ts : list Transaction) (sender : address)
    (now k : Z) :
  feasible ts →
  (∃ r, joinChit sender now k (storage (run deploy ts)) = Ok r) ↔
  k ∈ created_ids (log (run deploy ts)) ∧
  now < deadline (chits (storage (run deploy ts)) !!! k) ∧
  Z.of_nat (length (participants (chits (storage (run deploy ts)) !!! k)))
    < participantLimit (chits (storage (run deploy ts)) !!! k) ∧
  sender ∉ participants (chits (storage (run deploy ts)) !!! k).
Proof.
  intros Hf. pose proof (inv_run ts Hf) as Hinv.
  assert (Hrange : k ∈ created_ids (log (run deploy ts))
                   ↔ id (chits (storage (run deploy ts)) !!! k) ≠ 0).
  { rewrite (inv_created _ _ Hinv), elem_of_seqZ, (inv_allocated _ _ k Hinv).
    lia. }
  rewrite Hrange. split.
  - intros [r (_ & Hpre)%joinChit_Ok_inv]. exact Hpre.
  - intros (Hid & Hdl & Hcap & Hnew). eexists. by apply joinChit_ok.
Qed.

Lemma joinChit_succeeds_iff_witness :
  feasible [Scenario.create] ∧
  ∃ r, joinChit 11 200 1 (storage (run deploy [Scenario.create])) = Ok r.
Proof.
  assert (Hf : feasible [Scenario.create]) by (by vm_compute).
  split; [exact Hf|].
  apply (proj2 (joinChit_succeeds_iff [Scenario.create] 11 200 1 Hf)).
  split_and!.
  - vm_compute. apply list_elem_of_here.
  - by vm_compute.
  - by vm_compute.
  - vm_compute. intros H. apply elem_of_cons in H as [H|H]; [discriminate H|].
    by apply not_elem_of_nil in H.
Defined.

(** * Properties of the client component *)

Lemma Context_filter_nothing f l :
  (∀ x, x ∈ l → ∃ v, f x = Some v ∧ Context.truthy v = false) →
  Context.filter f l = Some [].
Proof.
  induction l as [|x l IH]; intros H; [done|]. cbn.
  destruct (H x) as (v & -> & Hv); [apply list_elem_of_here|]. cbn.
  rewrite IH, Hv; [done|]. intros y Hy. apply H. by apply list_elem_of_further.
Qed.

Lemma Context_some_nothing f l :
  (∀ x, x ∈ l → f x = Some false) → Context.some f l = Some false.
Proof.
  induction l as [|x l IH]; intros H; [done|]. cbn.
  rewrite (H x) by apply list_elem_of_here. cbn.
  apply IH. intros y Hy. apply H. by apply list_elem_of_further.
Qed.

(** X13: [fetchCreatedChits] compares [chit.creator] with the wallet
    address. When the pools delivered have no [creator] property, as the
    contract's [Chit] struct has none, the filter keeps nothing:
    [createdChits] is set to the empty array, whoever created the pools. *)
Theorem fetchCreatedChits_finds_nothing (st : Context.State)
    (c : Context.Handle) (w : string) (allChits : list Context.JsValue) :
  Context.contract st = Some c →
  Context.walletAddress st = Some w → w ≠ EmptyString →
  (∀ chit, chit ∈ allChits →
           Context.get chit "creator" = Some Context.JsUndefined) →
  Context.fetchCreatedChits (Some allChits) st = Context.setCreatedChits [] st.
Proof.
  intros Hc Hw Hne Hall. unfold Context.fetchCreatedChits. rewrite Hc, Hw.
  destruct (is_Some_dec (Some c)) as [_|[]]; [|by eexists].
  destruct (String.eqb_spec w EmptyString); [done|].
  rewrite Context_filter_nothing; [done|].
  intros chit Hin. exists (Context.JsBool false). split; [|done].
  unfold Context.created_by. by rewrite (Hall chit Hin).
Qed.

Lemma fetchCreatedChits_finds_nothing_witness :
  (∀ chit, chit ∈ [ClientScenario.pool] →
           Context.get chit "creator" = Some Context.JsUndefined) ∧
  Context.fetchCreatedChits (Some [ClientScenario.pool]) ClientScenario.state
    = Context.setCreatedChits [] ClientScenario.state.
Proof.
  assert (H : ∀ chit, chit ∈ [ClientScenario.pool] →
                      Context.get chit "creator" = Some Context.JsUndefined).
  { intros chit ->%list_elem_of_singleton. reflexivity. }
  split; [exact H|].
  apply (fetchCreatedChits_finds_nothing ClientScenario.state
           Context.EthersObject "0xBb" [ClientScenario.pool]);
    [reflexivity | reflexivity | discriminate | exact H].
Defined.

(** X14: [fetchMyChits] looks for a participant whose [wallet] property is
    the wallet address. When each pool's [participants] is an array of
    address strings, as the contract's [address[]] is delivered, no
    participant has such a property and the filter keeps nothing: [myChits]
    is set to the empty array, also for a wallet that is a participant. *)
Theorem fetchMyChits_finds_nothing (st : Context.State)
    (c : Context.Handle) (w : string) (allChits : list Context.JsValue) :
  Context.contract st = Some c →
  Context.walletAddress st = Some w → w ≠ EmptyString →
  (∀ chit, chit ∈ allChits →
     ∃ ps, Context.get chit "participants" = Some (Context.JsArray ps) ∧
           ∀ p, p ∈ ps → ∃ a, p = Context.JsString a) →
  Context.fetchMyChits (Some allChits) st = Context.setMyChits [] st.
Proof.
  intros Hc Hw Hne Hall. unfold Context.fetchMyChits. rewrite Hc, Hw.
  destruct (is_Some_dec (Some c)) as [_|[]]; [|by eexists].
  destruct (String.eqb_spec w EmptyString); [done|].
  rewrite Context_filter_nothing; [done|].
  intros chit Hin. exists (Context.JsBool false). split; [|done].
  destruct (Hall chit Hin) as (ps & Hps & Hstr).
  unfold Context.joined_by. rewrite Hps. cbn.
  rewrite Context_some_nothing; [done|].
  intros p Hp. destruct (Hstr p Hp) as (a & ->). reflexivity.
Qed.

Lemma fetchMyChits_finds_nothing_witness :
  (∀ chit, chit ∈ [ClientScenario.pool] →
     ∃ ps, Context.get chit "participants" = Some (Context.JsArray ps) ∧
           ∀ p, p ∈ ps → ∃ a, p = Context.JsString a) ∧
  Context.fetchMyChits (Some [ClientScenario.pool]) ClientScenario.state
    = Context.setMyChits [] ClientScenario.state.
Proof.
  assert (H : ∀ chit, chit ∈ [ClientScenario.pool] →
     ∃ ps, Context.get chit "participants" = Some (Context.JsArray ps) ∧
           ∀ p, p ∈ ps → ∃ a, p = Context.JsString a).
  { intros chit ->%list_elem_of_singleton. eexists. split; [reflexivity|].
    intros p [->|[->|[]%not_elem_of_nil]%elem_of_cons]%elem_of_cons;
      by eexists. }
  split; [exact H|].
  apply (fetchMyChits_finds_nothing ClientScenario.state
           Context.EthersObject "0xBb" [ClientScenario.pool]);
    [reflexivity | reflexivity | discriminate | exact H].
Defined.

Lemma Context_map_from_spec f l : ∀ i parsed,
  Context.map_from f i l = Some parsed →
  length parsed = length l ∧
  ∀ n x y, l !! n = Some x → parsed !! n = Some y → f x (i + n)%nat = Some y.
Proof.
  induction l as [|x l IH]; intros i parsed; cbn.
  - intros [= <-]. split; [done|]. intros n x y Hx. done.
  - destruct (f x i) as [y|] eqn:Hy; [|done]. cbn.
    destruct (Context.map_from f (S i) l) as [rest|] eqn:Hrest; [|done]. cbn.
    intros [= <-]. destruct (IH _ _ Hrest) as [Hlen Hnth].
    split; [cbn; by rewrite Hlen|].
    intros [|n] x' y' Hx' Hy'; simplify_eq/=.
    + by rewrite Nat.add_0_r.
    + rewrite <- Nat.add_succ_comm. by apply Hnth.
Qed.

(** X15: when parsing goes through, [fetchAllChits] puts into [chits] one
    object per pool delivered, in the same order. The [id] of each object is
    its position in the array, counted from 0, whatever the pool's own [id]
    is; its [participants] is the text "0" and its [by] the text "Unknown"
    whenever the pool delivered has no [numberOfParticipants] and no
    [creator] property, as the contract's [Chit] struct has neither. *)
Theorem fetchAllChits_parsed (toString : Context.JsValue → string)
    (formatEther : string → option string)
    (st : Context.State) (c : Context.Handle)
    (allChits parsedChits : list Context.JsValue) :
  Context.contract st = Some c →
  Context.map_from (Context.parseChit toString formatEther) 0 allChits
    = Some parsedChits →
  Context.fetchAllChits toString formatEther (Some allChits) st
    = Context.setChits parsedChits st ∧
  length parsedChits = length allChits ∧
  ∀ (i : nat) data parsed,
    allChits !! i = Some data → parsedChits !! i = Some parsed →
    Context.get parsed "id" = Some (Context.JsNumber (Z.of_nat i)) ∧
    (Context.get data "numberOfParticipants" = Some Context.JsUndefined →
     Context.get parsed "participants" = Some (Context.JsString "0")) ∧
    (Context.get data "creator" = Some Context.JsUndefined →
     Context.get parsed "by" = Some (Context.JsString "Unknown")).
Proof.
  intros Hc Hmap. unfold Context.fetchAllChits. rewrite Hc, Hmap.
  destruct (Context_map_from_spec _ _ _ _ Hmap) as [Hlen Hnth].
  split_and!; [done | done |].
  intros i data parsed Hdata Hparsed.
  specialize (Hnth i data parsed Hdata Hparsed). cbn in Hnth.
  unfold Context.parseChit in Hnth.
  destruct (Context.get data "title") as [title|]; [|done].
  destruct (Context.get data "description") as [description|]; [|done].
  destruct (Context.get data "totalAmount") as [totalAmount|]; [|done].
  cbn in Hnth.
  destruct (Context.ether_or_zero toString formatEther totalAmount)
    as [total|]; [|done].
  destruct (Context.get data "installmentAmount") as [installmentAmount|];
    [|done].
  cbn in Hnth.
  destruct (Context.ether_or_zero toString formatEther installmentAmount)
    as [inst|]; [|done].
  destruct (Context.get data "deadline") as [deadline|]; [|done].
  destruct (Context.get data "numberOfParticipants") as [n|]; [|done].
  destruct (Context.get data "creator") as [creator|]; [|done].
  cbn in Hnth. injection Hnth as <-.
  split_and!; [done | by intros [= ->] | by intros [= ->]].
Qed.

Lemma fetchAllChits_parsed_witness :
  Context.contract ClientScenario.state = Some Context.EthersObject ∧
  Context.get
    (Context.JsObject
       [ ("id", Context.JsNumber 0);
         ("title", Context.JsString "pool");
         ("desc", Context.JsString "monthly");
         ("total", Context.JsString "1000");
         ("inst", Context.JsString "100");
         ("deadline", Context.JsDate (Context.JsBigNumber 3700));
         ("participants", Context.JsString "0");
         ("by", Context.JsString "Unknown") ]) "id"
    = Some (Context.JsNumber (Z.of_nat 0)).
Proof.
  assert (Hc : Context.contract ClientScenario.state
               = Some Context.EthersObject) by reflexivity.
  assert (Hmap : Context.map_from
            (Context.parseChit ClientScenario.toString
                               ClientScenario.formatEther) 0
            [ClientScenario.pool]
          = Some [Context.JsObject
                    [ ("id", Context.JsNumber 0);
                      ("title", Context.JsString "pool");
                      ("desc", Context.JsString "monthly");
                      ("total", Context.JsString "1000");
                      ("inst", Context.JsString "100");
                      ("deadline", Context.JsDate (Context.JsBigNumber 3700));
                      ("participants", Context.JsString "0");
                      ("by", Context.JsString "Unknown") ]])
    by (by vm_compute).
  split; [exact Hc|].
  exact (proj1 (proj2 (proj2
           (fetchAllChits_parsed _ _ _ _ _ _ Hc Hmap)) 0%nat _ _
           eq_refl eq_refl)).
Defined.
